(** * kaf consume: offset resolution, header decoding, record rendering

    A shallow embedding of [cmd/kaf/consume.go]: the retry loop of the
    offset probe, the per-partition worker goroutine with the variables
    it shares with its siblings, the header decoding heuristic, and the
    rendering of one consumed message; and of the topic commands of
    [cmd/kaf/topic.go]. *)

From Stdlib Require Import ZArith Lia.
From Stdlib Require Import DecimalString DecimalPos DecimalN.
From Stdlib Require Import Strings.Byte Strings.Ascii.
From Stdlib Require Import OrdersEx.
From stdpp Require Import base option list strings gmap sorting.

Local Open Scope string_scope.
Local Open Scope Z_scope.

(** ** Go values *)

(** A computation that either returns or panics (a Go run-time panic
    aborts the process when no one recovers it; nothing in consume.go
    does). *)
Inductive Go (A : Type) : Type :=
| Ret (a : A)
| Panic (msg : string).
Arguments Ret {A} a.
Arguments Panic {A} msg.

#[global] Instance go_bind : MBind Go := fun A B k m =>
  match m with
  | Ret a => k a
  | Panic msg => Panic msg
  end.

(** A Go [[]byte]: the elements below [len], and the elements of the
    backing array between [len] and [cap].  Indexing is checked against
    [len], slicing against [cap]. *)
Record slice : Type := mkSlice { elems : list byte; spare : list byte }.

Definition len (s : slice) : nat := length (elems s).
Definition cap (s : slice) : nat := length (elems s) + length (spare s).
Definition backing (s : slice) : list byte := elems s ++ spare s.

(** [s[i]] *)
Definition index (s : slice) (i : nat) : Go byte :=
  match elems s !! i with
  | Some b => Ret b
  | None => Panic "index out of range"
  end.

(** [s[lo:hi]] *)
Definition reslice (s : slice) (lo hi : nat) : Go slice :=
  if bool_decide (hi ≤ cap s)%nat then
    if bool_decide (lo ≤ hi)%nat then
      Ret {| elems := take (hi - lo) (drop lo (backing s));
             spare := drop hi (backing s) |}
    else Panic "slice bounds out of range"
  else Panic "slice bounds out of range".

(** [string(b)] *)
Definition string_of_slice (s : slice) : string :=
  String.string_of_list_byte (elems s).

(** A slice as the broker client hands it over when nothing follows it
    in the backing array. *)
Definition bytes (l : list byte) : slice := mkSlice l [].

(** Arithmetic on [byte] (uint8) wraps around. *)
Definition uint8_add (a b : Z) : Z := (a + b) mod 256.

Definition byteZ (b : byte) : Z := Z.of_N (Byte.to_N b).

(** Arithmetic on [int64] wraps around. *)
Definition wrap64 (z : Z) : Z := (z + 2 ^ 63) mod 2 ^ 64 - 2 ^ 63.

(** [binary.BigEndian.Uint64]: a bounds check on [b[7]], then the eight
    bytes or-ed together, the first one highest. *)
Definition BigEndian_Uint64 (b : slice) : Go Z :=
  match elems b with
  | b0 :: b1 :: b2 :: b3 :: b4 :: b5 :: b6 :: b7 :: _ =>
      Ret (Z.lor (Z.lor (Z.lor (Z.lor (Z.lor (Z.lor (Z.lor
             (byteZ b7)
             (Z.shiftl (byteZ b6) 8))
             (Z.shiftl (byteZ b5) 16))
             (Z.shiftl (byteZ b4) 24))
             (Z.shiftl (byteZ b3) 32))
             (Z.shiftl (byteZ b2) 40))
             (Z.shiftl (byteZ b1) 48))
             (Z.shiftl (byteZ b0) 56))
  | _ => Panic "index out of range"
  end.

(** [strconv.FormatUint(v, 10)]: the decimal numeral of [v]. *)
Definition FormatUint (v : Z) : string :=
  NilZero.string_of_uint (N.to_uint (Z.to_N v)).

(** [%v] of a signed integer. *)
Definition FormatInt (v : Z) : string :=
  NilZero.string_of_int (Z.to_int v).

(** The number a decimal numeral denotes. *)
Definition decimal_value (s : string) : option Z :=
  match NilZero.uint_of_string s with
  | Some d => Some (Z.of_N (N.of_uint d))
  | None => None
  end.

(** The value of a byte sequence read as a big-endian number. *)
Definition big_endian (bs : list byte) : Z :=
  fold_left (fun acc b => acc * 256 + byteZ b) bs 0.

(** ** Header decoding (consume.go, lines 149-160)

    The value shown for one header: the Azure Event Hubs encodings are
    sniffed from the first byte. *)
Definition hdrValue (v : slice) : Go string :=
  if bool_decide (0 < len v)%nat then
    b0 ← index v 0;
    if byteZ b0 =? 161 then
      l ← index v 1;
      s ← reslice v 2 (Z.to_nat (uint8_add 2 (byteZ l)));
      Ret (string_of_slice s)
    else if byteZ b0 =? 131 then
      s ← reslice v 1 9;
      u ← BigEndian_Uint64 s;
      Ret (FormatUint u)
    else Ret (string_of_slice v)
  else Ret "".

(** Sample header values. *)
Definition hdr_hello : slice := bytes [xa1; x05; x68; x65; x6c; x6c; x6f].
Definition hdr_12345 : slice :=
  bytes [x83; x00; x00; x00; x00; x00; x00; x30; x39].
Definition hdr_short_string_cut : slice := bytes [xa1].
Definition hdr_integer_cut : slice := bytes [x83; x01; x02].
Definition hdr_long_string : slice := bytes (xa1 :: xfe :: repeat x61 254).

(** ** The collaborators of consume.go *)

Definition error : Type := string.

Inductive Result (A : Type) : Type :=
| Ok (a : A)
| Err (e : error).
Arguments Ok {A} a.
Arguments Err {A} e.

(** sarama's sentinels for the two ends of a partition's log. *)
Definition OffsetNewest : Z := -1.
Definition OffsetOldest : Z := -2.

(** Durations and instants are counted in nanoseconds, as [time.Duration]
    does. *)
Definition Millisecond : Z := 1000000.
Definition offsetsRetry : Z := 500 * Millisecond.

Record OffsetResponseBlock : Type := { BlockOffset : Z }.

(** [GetBlock topic partition] is [None] where sarama returns a nil
    block. *)
Record OffsetResponse : Type :=
  { GetBlock : string -> Z -> option OffsetResponseBlock }.

(** A partition leader: what its n-th [GetAvailableOffsets] call
    answers, and how long the call takes. *)
Record Broker : Type :=
  { GetAvailableOffsets : nat -> Z * Result OffsetResponse }.

Module RecordHeader.
Record t : Type := { Key : slice; Value : slice }.
End RecordHeader.

Module ConsumerMessage.
Record t : Type :=
  { Key : slice;
    Value : slice;
    Headers : list RecordHeader.t;
    Partition : Z;
    Offset : Z;
    Timestamp : Z }.
End ConsumerMessage.

(** The broker client and the consumer made from it.  A partition
    consumer is given by the messages its channel delivers before it is
    closed. *)
Record Client : Type :=
  { NewConsumerFromClient : option error;
    Partitions : string -> Result (list Z);
    Leader : string -> Z -> Result Broker;
    ConsumePartition : string -> Z -> Z -> Result (list ConsumerMessage.t) }.

(** Modelled from the spec: package avro of this repository is not among
    the sources; the spec describes its schema cache as an opaque
    capability [decode(bytes) -> (bytes, error)]. *)
Record SchemaCache : Type :=
  { DecodeMessage : slice -> slice * option error }.

(** [text/tabwriter]: a writer that forwards to the buffer under it what
    it has laid out so far, and the rest when flushed. *)
Record TabWriter : Type :=
  { tw_state : Type;
    tw_new : tw_state;
    tw_Write : tw_state -> string -> tw_state * string;
    tw_Flush : tw_state -> string }.

(** The flags, the argument, and what [getClient], [getSchemaCache] and
    the formatting libraries provide. *)
Record Env : Type :=
  { offsetFlag : string;
    raw : bool;
    follow : bool;
    topic : string;
    client : Client;
    schemaCache : option SchemaCache;
    prettyjson_Format : list byte -> Result (list byte);
    keyfmt_Format : list byte -> Result (list byte);
    tabwriter : TabWriter;
    formatTime : Z -> string }.

(** ** The retry loop (consume.go, lines 39-58) *)

Record RetryState : Type :=
  { attempts : nat; now : Z; err : option error }.

(** [time.After d] at instant [t] is a channel that can be received from
    at [t + d]; a [select] with a [default] takes the channel only when
    it is ready at the instant the [select] runs, which is the instant
    the timer is made: the clock of the loop moves with the calls to the
    leader. *)
Definition time_After (t d : Z) : Z := t + d.
Definition ready (c t : Z) : bool := c <=? t.

Inductive RetryStep : Type :=
| TimedOut (e : option error)
| Succeeded (offsets : OffsetResponse) (s : RetryState)
| Failed (s : RetryState).

(** One turn of the [for] loop. *)
Definition retry_iter (ldr : Broker) (d : Z) (s : RetryState) : RetryStep :=
  if ready (time_After (now s) d) (now s) then TimedOut (err s)
  else
    let r := GetAvailableOffsets ldr (attempts s) in
    match r.2 with
    | Ok offsets =>
        Succeeded offsets
          {| attempts := S (attempts s); now := now s + r.1; err := None |}
    | Err e =>
        Failed
          {| attempts := S (attempts s); now := now s + r.1; err := Some e |}
    end.

(** The loop, cut after [fuel] turns: [Failed s] is a loop that is still
    running, in state [s]. *)
Fixpoint getAvailableOffsetsRetry
  (fuel : nat) (ldr : Broker) (d : Z) (s : RetryState) : RetryStep :=
  match fuel with
  | O => Failed s
  | S fuel' =>
      match retry_iter ldr d s with
      | Failed s' => getAvailableOffsetsRetry fuel' ldr d s'
      | r => r
      end
  end.

Definition retry_start : RetryState :=
  {| attempts := 0; now := 0; err := None |}.

(** A leader none of whose answers is a success. *)
Definition always_fails (ldr : Broker) : Prop :=
  forall n, exists e, (GetAvailableOffsets ldr n).2 = Err e.

(** ** The start offset chosen by the flag (lines 68-80) *)
Definition initialOffset (flag : string) : Z :=
  if String.eqb flag "oldest" then OffsetOldest
  else if String.eqb flag "newest" then OffsetNewest
  else OffsetNewest.

(** ** Rendering one message (lines 129-175) *)

Definition avroDecode (cache : option SchemaCache) (b : slice)
  : slice * option error :=
  match cache with
  | Some c => DecodeMessage c b
  | None => (b, None)
  end.

Definition LF : string := String "010"%char "".
Definition TAB : string := String "009"%char "".

Definition decode_diagnostic (e : error) : string :=
  "could not decode Avro data: " +:+ e +:+ LF.

Section Render.
Context (env : Env).

Definition formatKey (key : slice) : string :=
  match keyfmt_Format env (elems key) with
  | Ok b => String.string_of_list_byte b
  | Err _ => string_of_slice key
  end.

(** The tabwriter [w] and the buffer [stderr] it writes to. *)
Definition Pen : Type := tw_state (tabwriter env) * string.

(** [fmt.Fprintf(w, ...)] *)
Definition Fprintf_w (p : Pen) (text : string) : Pen :=
  let r := tw_Write (tabwriter env) p.1 text in (r.1, p.2 +:+ r.2).

(** [fmt.Fprintf(&stderr, ...)] *)
Definition Fprintf_stderr (p : Pen) (text : string) : Pen :=
  (p.1, p.2 +:+ text).

(** [w.Flush()] *)
Definition Flush (p : Pen) : string :=
  p.2 +:+ tw_Flush (tabwriter env) p.1.

(** What is in the buffer stays at its head: the writers only append. *)
Definition extends (p q : Pen) : Prop := exists more, q.2 = p.2 +:+ more.

Definition header_line (hdr : RecordHeader.t) (v : string) : string :=
  TAB +:+ "Key: " +:+ string_of_slice (RecordHeader.Key hdr)
    +:+ TAB +:+ "Value: " +:+ v +:+ LF.

(** The loop over the headers (lines 148-164). *)
Fixpoint print_headers (hdrs : list RecordHeader.t) (p : Pen) : Go Pen :=
  match hdrs with
  | [] => Ret p
  | hdr :: rest =>
      v ← hdrValue (RecordHeader.Value hdr);
      print_headers rest (Fprintf_w p (header_line hdr v))
  end.

Definition print_key (msg : ConsumerMessage.t) (p : Pen) : Pen :=
  if bool_decide (0 < len (ConsumerMessage.Key msg))%nat then
    let r := avroDecode (schemaCache env) (ConsumerMessage.Key msg) in
    let p' := match r.2 with
              | Some e => Fprintf_stderr p (decode_diagnostic e)
              | None => p
              end in
    Fprintf_w p' ("Key:" +:+ TAB +:+ formatKey r.1 +:+ LF)
  else p.

Definition position_lines (msg : ConsumerMessage.t) : string :=
  "Partition:" +:+ TAB +:+ FormatInt (ConsumerMessage.Partition msg) +:+ LF
  +:+ "Offset:" +:+ TAB +:+ FormatInt (ConsumerMessage.Offset msg) +:+ LF
  +:+ "Timestamp:" +:+ TAB
  +:+ formatTime env (ConsumerMessage.Timestamp msg) +:+ LF.

(** The body of the loop over the messages up to the lock: the buffer
    that goes to standard error and the bytes that go to standard
    output. *)
Definition renderMessage (msg : ConsumerMessage.t) : Go (string * string) :=
  let r := avroDecode (schemaCache env) (ConsumerMessage.Value msg) in
  let stderr := match r.2 with
                | Some e => decode_diagnostic e
                | None => ""
                end in
  if negb (raw env) then
    let dataToDisplay :=
      match prettyjson_Format env (elems r.1) with
      | Ok formatted => String.string_of_list_byte formatted
      | Err _ => string_of_slice r.1
      end in
    let p : Pen := (tw_new (tabwriter env), stderr) in
    let p := if bool_decide (0 < length (ConsumerMessage.Headers msg))%nat
             then Fprintf_w p ("Headers:" +:+ LF) else p in
    p ← print_headers (ConsumerMessage.Headers msg) p;
    let p := print_key msg p in
    let p := Fprintf_w p (position_lines msg) in
    Ret (Flush p, dataToDisplay)
  else Ret (stderr, string_of_slice r.1).

End Render.

(** ** The goroutines of consumeCmd (lines 98-186)

    One goroutine per partition.  They share the variable [offset]
    declared at line 68 (the closure captures it by reference), the
    mutex [mu] and the two output streams.  A step is what one
    goroutine does between two points where another one may run. *)

Inductive Action : Type :=
| CallLeader (partition : Z)
| CallGetAvailableOffsets (partition : Z)
| PrintStarting (partition offset : Z)
| CallConsumePartition (partition offset : Z)
| WriteStderr (text : string)
| WriteStdout (text : string)
| PrintNewline.

(** What goroutine [g] did. *)
Definition Event : Type := nat * Action.

(** Where a goroutine is in the closure of line 102, with the local
    variables that are live there. *)
Inductive PC : Type :=
| AtLeader                                     (* line 107 *)
| AtRetry (ldr : Broker) (s : RetryState)      (* a turn of lines 47-57 *)
| AtFollow (offsets : option OffsetResponse)   (* lines 113-119 *)
| AtStarting                                   (* line 120 *)
| AtConsume                                    (* line 123 *)
| AtMessages (msgs : list ConsumerMessage.t)   (* lines 128-175 *)
| AtLock (stderr data : string) (msgs : list ConsumerMessage.t)        (* 177 *)
| AtWriteStderr (stderr data : string) (msgs : list ConsumerMessage.t) (* 178 *)
| AtWriteStdout (data : string) (msgs : list ConsumerMessage.t)        (* 179 *)
| AtPrint (msgs : list ConsumerMessage.t)                              (* 180 *)
| AtUnlock (msgs : list ConsumerMessage.t)                             (* 181 *)
| AtDone.                                      (* line 183 *)

Record Goroutine : Type := { partition : Z; pc : PC }.

Inductive Status : Type :=
| Running
| Exited (text : string)
| Panicked (msg : string).

Record Proc : Type :=
  { offset : Z;
    mu : option nat;
    trace : list Event;
    goroutines : list Goroutine;
    status : Status }.

Definition goto (g : nat) (G : Goroutine) (pc' : PC) (P : Proc) : Proc :=
  {| offset := offset P; mu := mu P; trace := trace P;
     goroutines := <[g := {| partition := partition G; pc := pc' |}]> (goroutines P);
     status := status P |}.

Definition emit (g : nat) (a : Action) (P : Proc) : Proc :=
  {| offset := offset P; mu := mu P; trace := trace P ++ [(g, a)];
     goroutines := goroutines P; status := status P |}.

Definition set_offset (o : Z) (P : Proc) : Proc :=
  {| offset := o; mu := mu P; trace := trace P;
     goroutines := goroutines P; status := status P |}.

Definition set_mu (m : option nat) (P : Proc) : Proc :=
  {| offset := offset P; mu := m; trace := trace P;
     goroutines := goroutines P; status := status P |}.

Definition panic (msg : string) (P : Proc) : Proc :=
  {| offset := offset P; mu := mu P; trace := trace P;
     goroutines := goroutines P; status := Panicked msg |}.

(** Modelled from the spec: [errorExit] is defined outside consume.go;
    the spec has the failures it reports abort the whole consume
    operation with a message. *)
Definition errorExit (format : string) (e : error) (P : Proc) : Proc :=
  {| offset := offset P; mu := mu P; trace := trace P;
     goroutines := goroutines P; status := Exited (format +:+ e +:+ LF) |}.

Section Consume.
Context (env : Env).

Definition step_goroutine (g : nat) (G : Goroutine) (P : Proc) : Proc :=
  let p := partition G in
  match pc G with
  | AtLeader =>
      let P := emit g (CallLeader p) P in
      match Leader (client env) (topic env) p with
      | Err e => errorExit "Unable to get leader: " e P
      | Ok ldr => goto g G (AtRetry ldr retry_start) P
      end
  | AtRetry ldr s =>
      match retry_iter ldr offsetsRetry s with
      | TimedOut (Some e) => errorExit "Unable to get available offsets: " e P
      | TimedOut None => goto g G (AtFollow None) P
      | Succeeded offsets _ =>
          goto g G (AtFollow (Some offsets)) (emit g (CallGetAvailableOffsets p) P)
      | Failed s' =>
          goto g G (AtRetry ldr s') (emit g (CallGetAvailableOffsets p) P)
      end
  | AtFollow None => panic "nil pointer dereference" P
  | AtFollow (Some offsets) =>
      match GetBlock offsets (topic env) p with
      | None => panic "nil pointer dereference" P
      | Some block =>
          let followOffset := wrap64 (BlockOffset block - 1) in
          if follow env && (0 <? followOffset)
          then goto g G AtStarting (set_offset followOffset P)
          else goto g G AtConsume P
      end
  | AtStarting => goto g G AtConsume (emit g (PrintStarting p (offset P)) P)
  | AtConsume =>
      let o := offset P in
      let P := emit g (CallConsumePartition p o) P in
      match ConsumePartition (client env) (topic env) p o with
      | Err e => errorExit "Unable to consume partition: " e P
      | Ok msgs => goto g G (AtMessages msgs) P
      end
  | AtMessages [] => goto g G AtDone P
  | AtMessages (msg :: rest) =>
      match renderMessage env msg with
      | Panic m => panic m P
      | Ret r => goto g G (AtLock r.1 r.2 rest) P
      end
  | AtLock stderr data rest =>
      match mu P with
      | Some _ => P
      | None => goto g G (AtWriteStderr stderr data rest) (set_mu (Some g) P)
      end
  | AtWriteStderr stderr data rest =>
      goto g G (AtWriteStdout data rest) (emit g (WriteStderr stderr) P)
  | AtWriteStdout data rest =>
      goto g G (AtPrint rest) (emit g (WriteStdout data) P)
  | AtPrint rest => goto g G (AtUnlock rest) (emit g PrintNewline P)
  | AtUnlock rest => goto g G (AtMessages rest) (set_mu None P)
  | AtDone => P
  end.

(** Goroutine [g] is given the processor for one step; nothing runs once
    the process has exited or panicked. *)
Definition step (P : Proc) (g : nat) : Proc :=
  match status P with
  | Running =>
      match goroutines P !! g with
      | Some G => step_goroutine g G P
      | None => P
      end
  | _ => P
  end.

(** The process when the goroutines have been started (lines 68-102). *)
Definition start : Proc :=
  let P := {| offset := initialOffset (offsetFlag env); mu := None;
              trace := []; goroutines := []; status := Running |} in
  match NewConsumerFromClient (client env) with
  | Some e => errorExit "Unable to create consumer from client: " e P
  | None =>
      match Partitions (client env) (topic env) with
      | Err e => errorExit "Unable to get partitions: " e P
      | Ok partitions =>
          {| offset := offset P; mu := None; trace := [];
             goroutines := map (fun p => {| partition := p; pc := AtLeader |}) partitions;
             status := Running |}
      end
  end.

(** A schedule names the goroutine that runs at each step. *)
Definition run (sched : list nat) : Proc := foldl step start sched.

End Consume.

(** ** Reading a trace *)

Definition is_write (e : Event) : bool :=
  match e.2 with
  | WriteStderr _ | WriteStdout _ | PrintNewline => true
  | _ => false
  end.

(** The writes of the message loop, in the order they reach the
    streams. *)
Definition writes (tr : list Event) : list Event := filter is_write tr.

(** What the critical section of goroutine [g] writes for one message. *)
Definition block (g : nat) (r : string * string) : list Event :=
  [(g, WriteStderr r.1); (g, WriteStdout r.2); (g, PrintNewline)].

Definition is_probe (p : Z) (e : Event) : bool :=
  match e.2 with
  | CallGetAvailableOffsets q => bool_decide (q = p)
  | _ => false
  end.

(** How many times the leader of partition [p] was asked. *)
Definition probes (p : Z) (tr : list Event) : nat :=
  length (filter (is_probe p) tr).

Definition started_at (tr : list Event) : list (Z * Z) :=
  omap (fun e => match e.2 with
                 | CallConsumePartition p o => Some (p, o)
                 | _ => None
                 end) tr.

(** The blocks of a list of renderings, one after the other. *)
Definition blocks (done : list (nat * (string * string))) : list Event :=
  flat_map (fun b => block b.1 b.2) done.

(** ** Where a goroutine stands *)

(** It has an answer of its leader. *)
Definition probed (c : PC) : bool :=
  match c with
  | AtLeader | AtRetry _ _ | AtFollow None => false
  | _ => true
  end.

(** It is between [mu.Lock()] and [mu.Unlock()]. *)
Definition critical (c : PC) : bool :=
  match c with
  | AtWriteStderr _ _ _ | AtWriteStdout _ _ | AtPrint _ | AtUnlock _ => true
  | _ => false
  end.

(** What it has written of the block it is writing. *)
Definition pending (g : nat) (c : PC) (evs : list Event) : Prop :=
  match c with
  | AtWriteStderr _ _ _ => evs = []
  | AtWriteStdout data _ => exists e, evs = [(g, WriteStderr e)]
  | AtPrint _ => exists e d, evs = [(g, WriteStderr e); (g, WriteStdout d)]
  | AtUnlock _ => evs = []
  | _ => False
  end.

Section Standing.
Context (env : Env).

(** The leader and the answer a goroutine holds are those of its own
    partition, one of the partitions of the topic. *)
Definition origin (p : Z) (c : PC) : Prop :=
  (exists partitions,
      Partitions (client env) (topic env) = Ok partitions /\ p ∈ partitions)
  /\ match c with
     | AtRetry ldr _ => Leader (client env) (topic env) p = Ok ldr
     | AtFollow (Some offsets) =>
         exists ldr n,
           Leader (client env) (topic env) p = Ok ldr
           /\ (GetAvailableOffsets ldr n).2 = Ok offsets
     | _ => True
     end.

(** No answer of any leader of the topic gives a follow offset above
    zero. *)
Definition no_follow_offset : Prop :=
  forall partitions p ldr n offsets b,
    Partitions (client env) (topic env) = Ok partitions -> p ∈ partitions ->
    Leader (client env) (topic env) p = Ok ldr ->
    (GetAvailableOffsets ldr n).2 = Ok offsets ->
    GetBlock offsets (topic env) p = Some b ->
    wrap64 (BlockOffset b - 1) <= 0.

(** No goroutine will assign the shared [offset]. *)
Definition quiet : Prop := follow env = false \/ no_follow_offset.

Definition standing (P : Proc) : Prop :=
  (forall g G, goroutines P !! g = Some G ->
     origin (partition G) (pc G)
     /\ (probed (pc G) = true ->
         (g, CallGetAvailableOffsets (partition G)) ∈ trace P))
  /\ (forall g p o (before after : list Event),
        trace P = (before ++ (g, CallConsumePartition p o) :: after)%list ->
        (g, CallGetAvailableOffsets p) ∈ before)
  /\ (quiet ->
      offset P = initialOffset (offsetFlag env)
      /\ forall g p o, (g, CallConsumePartition p o) ∈ trace P ->
           o = initialOffset (offsetFlag env)).

(** The writes so far are whole blocks, followed by the part written of
    the block of the goroutine that holds the mutex. *)
Definition serialized (P : Proc) : Prop :=
  exists done evs,
    writes (trace P) = (blocks done ++ evs)%list
    /\ match mu P with
       | None =>
           evs = []
           /\ forall h G, goroutines P !! h = Some G -> critical (pc G) = false
       | Some g =>
           (exists G, goroutines P !! g = Some G /\ pending g (pc G) evs)
           /\ forall h G, h <> g -> goroutines P !! h = Some G ->
                critical (pc G) = false
       end.

End Standing.

(** ** Sample collaborators *)

Definition broker_at (highWaterMark : Z) : Broker :=
  {| GetAvailableOffsets := fun _ =>
       (Millisecond,
        Ok {| GetBlock := fun _ _ => Some {| BlockOffset := highWaterMark |} |}) |}.

Definition broker_down : Broker :=
  {| GetAvailableOffsets := fun _ => (Millisecond, Err "connection refused") |}.

Definition client_of (partitions : list Z) (highWaterMark : Z -> Z)
  (log : Z -> list ConsumerMessage.t) : Client :=
  {| NewConsumerFromClient := None;
     Partitions := fun _ => Ok partitions;
     Leader := fun _ p => Ok (broker_at (highWaterMark p));
     ConsumePartition := fun _ p _ => Ok (log p) |}.

Definition plain_writer : TabWriter :=
  {| tw_state := unit;
     tw_new := tt;
     tw_Write := fun _ text => (tt, text);
     tw_Flush := fun _ => "" |}.

Definition env_of (flag : string) (raw follow : bool) (c : Client)
  (cache : option SchemaCache) : Env :=
  {| offsetFlag := flag; raw := raw; follow := follow; topic := "events";
     client := c; schemaCache := cache;
     prettyjson_Format := fun _ => Err "invalid character";
     keyfmt_Format := fun _ => Err "invalid character";
     tabwriter := plain_writer;
     formatTime := FormatInt |}.

Definition cache_unknown_schema : SchemaCache :=
  {| DecodeMessage := fun b => (b, Some "unknown schema") |}.

Definition message (p o : Z) (value : list byte) (hdrs : list RecordHeader.t)
  : ConsumerMessage.t :=
  {| ConsumerMessage.Key := bytes [];
     ConsumerMessage.Value := bytes value;
     ConsumerMessage.Headers := hdrs;
     ConsumerMessage.Partition := p;
     ConsumerMessage.Offset := o;
     ConsumerMessage.Timestamp := 0 |}.

Definition one_message (p : Z) : list ConsumerMessage.t :=
  [message p 0 [x78] []].

(** One partition holding five records, read from the oldest. *)
Definition env_oldest : Env :=
  env_of "oldest" false false (client_of [0] (fun _ => 5) one_message) None.

(** One partition that is empty, followed, with the flag left at its
    default. *)
Definition env_follow_empty : Env :=
  env_of "oldest" false true (client_of [0] (fun _ => 0) one_message) None.

(** Partitions 0 and 1 with high water marks [h0] and [h1], followed. *)
Definition env_two_partitions (h0 h1 : Z) : Env :=
  env_of "newest" false true
    (client_of [0; 1] (fun p => if p =? 0 then h0 else h1) one_message) None.

(** Raw output, and a schema cache that knows no schema. *)
Definition env_raw_unknown : Env :=
  env_of "oldest" true false (client_of [0] (fun _ => 5) one_message)
    (Some cache_unknown_schema).

(** A message whose only header value is the byte 161. *)
Definition message_cut_header : ConsumerMessage.t :=
  message 0 0 [x78]
    [{| RecordHeader.Key := bytes [x6b]; RecordHeader.Value := hdr_short_string_cut |}].

Definition env_cut_header : Env :=
  env_of "oldest" false false
    (client_of [0] (fun _ => 5) (fun _ => [message_cut_header]))
    (Some cache_unknown_schema).

(** Goroutine 0 runs up to its fetch before goroutine 1 starts. *)
Definition sched_one_then_other : list nat :=
  [0; 0; 0; 0; 0; 1; 1; 1; 1; 1]%nat.

(** Both goroutines assign the offset before either fetches. *)
Definition sched_assign_both_first : list nat :=
  [0; 0; 0; 1; 1; 1; 0; 0; 1; 1]%nat.

(** The two goroutines take turns. *)
Definition sched_alternating : list nat :=
  [0; 1; 0; 1; 0; 1; 0; 1; 0; 1; 0; 1; 0; 1; 0; 1; 0; 1; 0; 1; 0; 1; 0; 1]%nat.




Section Delivery.
Context (env : Env).





End Delivery.

(** ** Following the head of the log *)
(** The goroutine is past the assignment of line 119. *)
Definition settled (c : PC) : bool :=
  match c with
  | AtLeader | AtRetry _ _ | AtFollow _ => false
  | _ => true
  end.

Section Following.
Context (env : Env).

(** Every answer of every leader of the topic gives the follow offset
    [F]. *)
Definition follow_offset_is (F : Z) : Prop :=
  forall partitions p ldr n offsets b,
    Partitions (client env) (topic env) = Ok partitions -> p ∈ partitions ->
    Leader (client env) (topic env) p = Ok ldr ->
    (GetAvailableOffsets ldr n).2 = Ok offsets ->
    GetBlock offsets (topic env) p = Some b ->
    wrap64 (BlockOffset b - 1) = F.

Definition following (F : Z) (P : Proc) : Prop :=
  (forall g G, goroutines P !! g = Some G -> settled (pc G) = true -> offset P = F)
  /\ (forall g p o, (g, CallConsumePartition p o) ∈ trace P -> o = F).

End Following.

Definition broker_flaky : Broker :=
  {| GetAvailableOffsets := fun n =>
       if (n <? 2)%nat then (Millisecond, Err "not leader for partition")
       else (Millisecond,
             Ok {| GetBlock := fun _ _ => Some {| BlockOffset := 7 |} |}) |}.

Definition env_follow_one : Env :=
  env_of "oldest" false true (client_of [0] (fun _ => 11) one_message) None.

Definition env_numeric_flag : Env :=
  env_of "42" false false (client_of [0] (fun _ => 5) one_message) None.

(** A short string whose length byte runs past the value. *)
Definition hdr_over_read : slice :=
  mkSlice [xa1; x05; x68; x65] [x6c; x6c; x6f; x00].

(** ** The topic commands (topic.go) *)

(** sarama's error code for a topic the cluster does not know, and its
    resource type for topics. *)
Definition ErrUnknownTopicOrPartition : Z := 3.
Definition TopicResource : Z := 2.

(** The fields of sarama's records that topic.go reads or sets. *)
Module TopicDetail.
Record t : Type :=
  { NumPartitions : Z;
    ReplicationFactor : Z;
    ConfigEntries : gmap string (option string) }.
End TopicDetail.

Module PartitionMetadata.
Record t : Type :=
  { ID : Z; Leader : Z; Replicas : list Z; Isr : list Z }.
End PartitionMetadata.

Module TopicMetadata.
Record t : Type :=
  { Err : Z;
    Name : string;
    IsInternal : bool;
    Partitions : list PartitionMetadata.t }.
End TopicMetadata.

Module ConfigEntry.
Record t : Type :=
  { Name : string;
    Value : string;
    ReadOnly : bool;
    Default : bool;
    Sensitive : bool }.
End ConfigEntry.

Module ConfigResource.
Record t : Type := { Type_ : Z; Name : string }.
End ConfigResource.

Record ClusterAdmin : Type :=
  { ListTopics : Result (gmap string TopicDetail.t);
    DescribeTopics : list string -> Result (list TopicMetadata.t);
    DescribeConfig : ConfigResource.t -> Result (list ConfigEntry.t);
    CreateTopic : string -> TopicDetail.t -> bool -> option error;
    DeleteTopic : string -> option error }.

(** The flags of topic.go, what [getClusterAdmin] provides, and the
    library functions the commands lean on: the order in which [range]
    visits a map, [sort.Slice], and the two layouts of the tabwriter.
    [getHighWatermarks] is defined outside topic.go: it answers with the
    map it has built, or has ended the process with a message. *)
Record AdminEnv : Type :=
  { admin : ClusterAdmin;
    noHeaderFlag : bool;
    partitionsFlag : Z;
    replicasFlag : Z;
    compactFlag : bool;
    mapRange : gmap string TopicDetail.t -> list (string * TopicDetail.t);
    sort_Slice : forall A : Type, (A -> A -> bool) -> list A -> list A;
    getHighWatermarks : string -> list Z -> Result (gmap Z Z);
    tabwriter_flat : TabWriter;
    tabwriter_nested : TabWriter }.

(** [range] visits every entry of the map once, in an order of its
    own. *)
Definition ranges (r : gmap string TopicDetail.t -> list (string * TopicDetail.t)) : Prop :=
  forall m, r m ≡ₚ map_to_list m.

(** [less] is a strict weak ordering, as [sort.Slice] asks. *)
Definition strict_weak {A : Type} (less : A -> A -> bool) : Prop :=
  (forall a, less a a = false)
  /\ (forall a b c, less a b = true -> less b c = true -> less a c = true)
  /\ (forall a b c, less a b = false -> less b c = false -> less a c = false).

(** [sort.Slice] rearranges the slice and, for a strict weak ordering,
    leaves no element less than the one before it; it need not be
    stable. *)
Definition sorts (srt : forall A : Type, (A -> A -> bool) -> list A -> list A) : Prop :=
  forall (A : Type) (less : A -> A -> bool) (l : list A),
    srt A less l ≡ₚ l
    /\ (strict_weak less -> Sorted (fun a b => less b a = false) (srt A less l)).

(** What a command leaves on standard output, and how it ends. *)
Inductive Outcome : Type :=
| Returns (stdout : string)
| Exits (stdout : string) (text : string)
| Panics (stdout : string) (msg : string).

(** [%v] of a boolean and of a slice of integers. *)
Definition FormatBool (b : bool) : string := if b then "true" else "false".

Definition FormatInts (l : list Z) : string :=
  "[" +:+ String.concat " " (map FormatInt l) +:+ "]".

(** A tabwriter and what it has sent to standard output so far. *)
Definition Printer (tw : TabWriter) : Type := tw_state tw * string.

(** Successive [fmt.Fprintf(w, ...)]. *)
Definition Fprintf_all (tw : TabWriter) (p : Printer tw) (texts : list string) : Printer tw :=
  foldl (fun p text => let r := tw_Write tw p.1 text in (r.1, p.2 +:+ r.2)) p texts.

(** [w.Flush()] *)
Definition Flush_all (tw : TabWriter) (p : Printer tw) : string :=
  p.2 +:+ tw_Flush tw p.1.

Section Topic.
Context (env : AdminEnv).

(** *** topic ls (lines 51-86) *)

Definition sortedTopics (topics : gmap string TopicDetail.t) : list (string * TopicDetail.t) :=
  sort_Slice env _ (fun a b => String.ltb a.1 b.1) (mapRange env topics).

Definition topic_row (t : string * TopicDetail.t) : string :=
  t.1 +:+ TAB +:+ FormatInt (TopicDetail.NumPartitions t.2)
  +:+ TAB +:+ FormatInt (TopicDetail.ReplicationFactor t.2) +:+ TAB +:+ LF.

Definition lsTopics_prints (topics : gmap string TopicDetail.t) : list string :=
  (if negb (noHeaderFlag env)
   then ["NAME" +:+ TAB +:+ "PARTITIONS" +:+ TAB +:+ "REPLICAS" +:+ TAB +:+ LF]
   else [])
  ++ map topic_row (sortedTopics topics).

Definition lsTopicsCmd : Outcome :=
  match ListTopics (admin env) with
  | Err e => Exits "" ("Unable to list topics: " +:+ e +:+ LF)
  | Ok topics =>
      let w := tabwriter_flat env in
      Returns (Flush_all w (Fprintf_all w (tw_new w, "") (lsTopics_prints topics)))
  end.

(** *** topic describe (lines 94-165) *)

(** The loop of lines 115-120. *)
Definition compacted (cfg : list ConfigEntry.t) : bool :=
  foldl (fun c e =>
           if String.eqb (ConfigEntry.Name e) "cleanup.policy"
              && String.eqb (ConfigEntry.Value e) "compact"
           then true else c) false cfg.

Definition sortedPartitions (detail : TopicMetadata.t) : list PartitionMetadata.t :=
  sort_Slice env _ (fun a b => PartitionMetadata.ID a <? PartitionMetadata.ID b)
    (TopicMetadata.Partitions detail).

Definition sortedInts (l : list Z) : list Z :=
  sort_Slice env _ (fun a b => a <? b) l.

(** A key that is not in a Go map reads as zero. *)
Definition partition_row (highWatermarks : gmap Z Z) (partition : PartitionMetadata.t) : string :=
  TAB +:+ FormatInt (PartitionMetadata.ID partition)
  +:+ TAB +:+ FormatInt (default 0 (highWatermarks !! PartitionMetadata.ID partition))
  +:+ TAB +:+ FormatInt (PartitionMetadata.Leader partition)
  +:+ TAB +:+ FormatInts (sortedInts (PartitionMetadata.Replicas partition))
  +:+ TAB +:+ FormatInts (sortedInts (PartitionMetadata.Isr partition))
  +:+ TAB +:+ LF.

Definition config_row (entry : ConfigEntry.t) : string :=
  TAB +:+ ConfigEntry.Name entry +:+ TAB +:+ ConfigEntry.Value entry
  +:+ TAB +:+ FormatBool (ConfigEntry.ReadOnly entry)
  +:+ TAB +:+ FormatBool (ConfigEntry.Sensitive entry) +:+ TAB +:+ LF.

(** The loop of lines 156-161. *)
Fixpoint config_rows (cfg : list ConfigEntry.t) : list string :=
  match cfg with
  | [] => []
  | entry :: rest =>
      if ConfigEntry.Default entry then config_rows rest
      else config_row entry :: config_rows rest
  end.

Definition describe_summary (detail : TopicMetadata.t) (cfg : list ConfigEntry.t) : list string :=
  [ "Name:" +:+ TAB +:+ TopicMetadata.Name detail +:+ TAB +:+ LF;
    "Internal:" +:+ TAB +:+ FormatBool (TopicMetadata.IsInternal detail) +:+ TAB +:+ LF;
    "Compacted:" +:+ TAB +:+ FormatBool (compacted cfg) +:+ TAB +:+ LF;
    "Partitions:" +:+ LF ].

Definition partitions_heading : list string :=
  [ TAB +:+ "Partition" +:+ TAB +:+ "High Watermark" +:+ TAB +:+ "Leader"
    +:+ TAB +:+ "Replicas" +:+ TAB +:+ "ISR" +:+ TAB +:+ LF;
    TAB +:+ "---------" +:+ TAB +:+ "--------------" +:+ TAB +:+ "------"
    +:+ TAB +:+ "--------" +:+ TAB +:+ "---" +:+ TAB +:+ LF ].

Definition config_heading : list string :=
  [ "Config:" +:+ LF;
    TAB +:+ "Name" +:+ TAB +:+ "Value" +:+ TAB +:+ "ReadOnly" +:+ TAB
    +:+ "Sensitive" +:+ TAB +:+ LF;
    TAB +:+ "----" +:+ TAB +:+ "-----" +:+ TAB +:+ "--------" +:+ TAB
    +:+ "---------" +:+ TAB +:+ LF ].

Definition describeTopicCmd (arg : string) : Outcome :=
  match DescribeTopics (admin env) [arg] with
  | Err e => Exits "" ("Unable to describe topics: " +:+ e +:+ LF)
  | Ok [] => Panics "" "index out of range"
  | Ok (detail :: _) =>
      if TopicMetadata.Err detail =? ErrUnknownTopicOrPartition then
        Returns ("Topic " +:+ arg +:+ " not found." +:+ LF)
      else
        match DescribeConfig (admin env)
                {| ConfigResource.Type_ := TopicResource; ConfigResource.Name := arg |} with
        | Err e => Exits "" ("Unable to describe config: " +:+ e +:+ LF)
        | Ok cfg =>
            let partitions := sortedPartitions detail in
            let w := tabwriter_flat env in
            let out := Flush_all w (Fprintf_all w (tw_new w, "") (describe_summary detail cfg)) in
            let w := tabwriter_nested env in
            let p := Fprintf_all w (tw_new w, out) partitions_heading in
            match getHighWatermarks env arg (map PartitionMetadata.ID partitions) with
            | Err text => Exits p.2 text
            | Ok highWatermarks =>
                let p := Fprintf_all w p (map (partition_row highWatermarks) partitions) in
                let p := Fprintf_all w p config_heading in
                let p := Fprintf_all w p (config_rows cfg) in
                Returns (Flush_all w p)
            end
        end
  end.

(** *** topic create (lines 171-190) *)

Definition createRequest : TopicDetail.t :=
  {| TopicDetail.NumPartitions := partitionsFlag env;
     TopicDetail.ReplicationFactor := replicasFlag env;
     TopicDetail.ConfigEntries :=
       {[ "cleanup.policy" := Some (if compactFlag env then "compact" else "delete") ]} |}.

Definition createTopicCmd (arg : string) : Outcome :=
  match CreateTopic (admin env) arg createRequest false with
  | Some e => Returns ("Could not create topic " +:+ arg +:+ ": " +:+ e +:+ LF)
  | None => Returns ("Created topic " +:+ arg +:+ "." +:+ LF)
  end.

End Topic.

(** Sample collaborators of the topic commands. *)
Definition merge_sorter (A : Type) (less : A -> A -> bool) (l : list A) : list A :=
  @merge_sort A (fun a b => less b a = false)
    (fun a b => decide (less b a = false)) l.

Definition detail_of (partitions replicas : Z) : TopicDetail.t :=
  {| TopicDetail.NumPartitions := partitions;
     TopicDetail.ReplicationFactor := replicas;
     TopicDetail.ConfigEntries := ∅ |}.

Definition two_topics : gmap string TopicDetail.t :=
  {[ "orders" := detail_of 3 2; "events" := detail_of 1 1 ]}.

Definition partition_of (id leader : Z) (replicas : list Z) : PartitionMetadata.t :=
  {| PartitionMetadata.ID := id; PartitionMetadata.Leader := leader;
     PartitionMetadata.Replicas := replicas; PartitionMetadata.Isr := replicas |}.

Definition orders_metadata : TopicMetadata.t :=
  {| TopicMetadata.Err := 0; TopicMetadata.Name := "orders";
     TopicMetadata.IsInternal := false;
     TopicMetadata.Partitions :=
       [partition_of 2 1 [3; 1]; partition_of 0 1 [2; 1]; partition_of 1 2 [2; 3]] |}.

Definition entry_of (name value : string) (default : bool) : ConfigEntry.t :=
  {| ConfigEntry.Name := name; ConfigEntry.Value := value;
     ConfigEntry.ReadOnly := false; ConfigEntry.Default := default;
     ConfigEntry.Sensitive := false |}.

Definition orders_config : list ConfigEntry.t :=
  [entry_of "retention.ms" "604800000" true; entry_of "cleanup.policy" "compact" false].

Definition sample_admin : ClusterAdmin :=
  {| ListTopics := Ok two_topics;
     DescribeTopics := fun names =>
       match names with
       | ["orders"] => Ok [orders_metadata]
       | [name] =>
           Ok [{| TopicMetadata.Err := ErrUnknownTopicOrPartition;
                  TopicMetadata.Name := name; TopicMetadata.IsInternal := false;
                  TopicMetadata.Partitions := [] |}]
       | _ => Ok []
       end;
     DescribeConfig := fun _ => Ok orders_config;
     CreateTopic := fun _ _ _ => None;
     DeleteTopic := fun _ => None |}.

(** An administrator's environment; [backwards] ranges over maps in the
    reverse of the order of [map_to_list] and sorts slices from their
    far end. *)
Definition admin_env (backwards compact : bool) : AdminEnv :=
  {| admin := sample_admin;
     noHeaderFlag := false;
     partitionsFlag := 1;
     replicasFlag := 1;
     compactFlag := compact;
     mapRange := fun m => if backwards then reverse (map_to_list m) else map_to_list m;
     sort_Slice := fun A less l =>
       merge_sorter A less (if backwards then reverse l else l);
     getHighWatermarks := fun _ _ => Ok {[ 0 := 42; 1 := 7 ]};
     tabwriter_flat := plain_writer;
     tabwriter_nested := plain_writer |}.

(* ================================================================== *)
(** * Properties *)

(** ** Bytes and numerals *)

Lemma byteZ_range (b : byte) : 0 <= byteZ b < 256.
Proof.
  unfold byteZ. pose proof (Byte.to_N_bounded b). lia.
Qed.

(** Or-ing a shifted value onto a narrower one adds them. *)
Lemma lor_shiftl_add (a b k : Z) :
  0 <= k -> 0 <= a < 2 ^ k -> Z.lor a (Z.shiftl b k) = a + b * 2 ^ k.
Proof.
  intros Hk Ha. rewrite Z.shiftl_mul_pow2 by assumption.
  symmetry. apply Z.add_nocarry_lor.
  apply Z.bits_inj'. intros i Hi.
  rewrite Z.land_spec, Z.bits_0.
  destruct (Z.lt_ge_cases i k) as [Hlt | Hge].
  - rewrite Z.mul_pow2_bits_low by assumption. apply andb_false_r.
  - assert (Hbits : Z.testbit a i = false).
    { apply (proj1 (Z.bounded_iff_bits_nonneg k a Hk (proj1 Ha)));
        [apply Ha | assumption]. }
    rewrite Hbits. reflexivity.
Qed.

Lemma BigEndian_Uint64_value (b0 b1 b2 b3 b4 b5 b6 b7 : byte) (more beyond : list byte) :
  BigEndian_Uint64 (mkSlice (b0 :: b1 :: b2 :: b3 :: b4 :: b5 :: b6 :: b7 :: more) beyond)
  = Ret (big_endian [b0; b1; b2; b3; b4; b5; b6; b7]).
Proof.
  unfold BigEndian_Uint64, big_endian. cbn [elems fold_left]. f_equal.
  pose proof (byteZ_range b0). pose proof (byteZ_range b1).
  pose proof (byteZ_range b2). pose proof (byteZ_range b3).
  pose proof (byteZ_range b4). pose proof (byteZ_range b5).
  pose proof (byteZ_range b6). pose proof (byteZ_range b7).
  rewrite (lor_shiftl_add (byteZ b7) _ 8) by lia.
  rewrite (lor_shiftl_add _ _ 16) by lia.
  rewrite (lor_shiftl_add _ _ 24) by lia.
  rewrite (lor_shiftl_add _ _ 32) by lia.
  rewrite (lor_shiftl_add _ _ 40) by lia.
  rewrite (lor_shiftl_add _ _ 48) by lia.
  rewrite (lor_shiftl_add _ _ 56) by lia.
  lia.
Qed.

Lemma big_endian_range (bs : list byte) :
  0 <= big_endian bs < 256 ^ Z.of_nat (length bs).
Proof.
  unfold big_endian.
  assert (G : forall acc n, 0 <= acc < 256 ^ Z.of_nat n ->
            0 <= fold_left (fun acc b => acc * 256 + byteZ b) bs acc
              < 256 ^ Z.of_nat (n + length bs)).
  { induction bs as [| b bs IH]; intros acc n Hacc; cbn [fold_left length].
    - rewrite Nat.add_0_r. exact Hacc.
    - replace (n + S (length bs))%nat with (S n + length bs)%nat by lia.
      apply IH. pose proof (byteZ_range b).
      rewrite Nat2Z.inj_succ, Z.pow_succ_r by lia. lia. }
  apply (G 0 0%nat). cbn. lia.
Qed.

(** The numeral [FormatUint] prints denotes the number printed. *)
Lemma decimal_value_FormatUint (v : Z) :
  0 <= v -> decimal_value (FormatUint v) = Some v.
Proof.
  intros Hv. unfold decimal_value, FormatUint.
  rewrite NilZero.usu.
  - rewrite DecimalN.Unsigned.of_to. f_equal. lia.
  - destruct (Z.to_N v) as [| p]; [discriminate |].
    apply DecimalPos.Unsigned.to_uint_nonnil.
Qed.

(** ** Header decoding *)

Example hdrValue_hello : hdrValue hdr_hello = Ret "hello".
Proof. reflexivity. Qed.

Example hdrValue_12345 : hdrValue hdr_12345 = Ret "12345".
Proof. reflexivity. Qed.

(** A value that is empty is shown as the empty text. *)
Lemma hdrValue_empty (beyond : list byte) : hdrValue (mkSlice [] beyond) = Ret "".
Proof. reflexivity. Qed.

(** X2. A value whose first byte is neither 161 nor 131 is shown as it is. *)
Lemma hdrValue_verbatim (b0 : byte) (rest beyond : list byte) :
  byteZ b0 <> 161 -> byteZ b0 <> 131 ->
  hdrValue (mkSlice (b0 :: rest) beyond)
  = Ret (String.string_of_list_byte (b0 :: rest)).
Proof.
  intros H1 H2. unfold hdrValue.
  rewrite bool_decide_true by (cbn; lia).
  cbn [index elems lookup list_lookup mbind go_bind].
  apply Z.eqb_neq in H1, H2. rewrite H1, H2. reflexivity.
Qed.

(** X3. The short-string encoding, for a length byte up to 253. *)
Lemma hdrValue_short_string (l : byte) (text rest beyond : list byte) :
  byteZ l = Z.of_nat (length text) -> byteZ l <= 253 ->
  hdrValue (mkSlice (xa1 :: l :: text ++ rest) beyond)
  = Ret (String.string_of_list_byte text).
Proof.
  intros Hl Hle. unfold hdrValue.
  rewrite bool_decide_true by (cbn; lia).
  cbn [index elems lookup list_lookup mbind go_bind].
  change (byteZ xa1 =? 161) with true. cbv iota.
  unfold uint8_add. rewrite Z.mod_small by (pose proof (byteZ_range l); lia).
  replace (Z.to_nat (2 + byteZ l)) with (2 + length text)%nat by lia.
  unfold reslice, cap, backing. cbn [elems spare length].
  rewrite bool_decide_true by (rewrite length_app; lia).
  rewrite bool_decide_true by lia.
  cbn [mbind go_bind]. unfold string_of_slice. cbn [elems].
  replace (2 + length text - 2)%nat with (length text) by lia.
  cbn [app drop]. rewrite drop_0, take_app3_length. reflexivity.
Qed.

(** The integer encoding: the eight bytes after the first, read as a
    big-endian number and printed in decimal. *)
Lemma hdrValue_integer (b1 b2 b3 b4 b5 b6 b7 b8 : byte) (rest beyond : list byte) :
  hdrValue (mkSlice (x83 :: b1 :: b2 :: b3 :: b4 :: b5 :: b6 :: b7 :: b8 :: rest) beyond)
  = Ret (FormatUint (big_endian [b1; b2; b3; b4; b5; b6; b7; b8])).
Proof.
  unfold hdrValue.
  rewrite bool_decide_true by (cbn; lia).
  cbn [index elems lookup list_lookup mbind go_bind].
  change (byteZ x83 =? 161) with false. change (byteZ x83 =? 131) with true.
  cbv iota. unfold reslice, cap, backing. cbn [elems spare length].
  rewrite bool_decide_true by lia. rewrite bool_decide_true by lia.
  cbn [mbind go_bind Nat.sub app drop take].
  rewrite BigEndian_Uint64_value. reflexivity.
Qed.

(** C7. A header value made of the byte 131 and at least eight more
    bytes is shown as the decimal numeral of the unsigned 64-bit number
    those eight bytes spell, the first one highest. *)
Theorem hdrValue_uint64_decimal (body rest beyond : list byte) :
  length body = 8%nat ->
  hdrValue (mkSlice (x83 :: body ++ rest) beyond)
    = Ret (FormatUint (big_endian body))
  /\ decimal_value (FormatUint (big_endian body)) = Some (big_endian body)
  /\ 0 <= big_endian body < 2 ^ 64.
Proof.
  intros Hlen.
  pose proof (big_endian_range body) as Hrange. rewrite Hlen in Hrange.
  split; [| split].
  - do 9 (destruct body as [| ? body]; try discriminate Hlen).
    cbn [app]. apply hdrValue_integer.
  - apply decimal_value_FormatUint. apply Hrange.
  - exact Hrange.
Qed.

Lemma hdrValue_uint64_decimal_witness :
  hdrValue hdr_12345 = Ret (FormatUint 12345)
  /\ decimal_value (FormatUint 12345) = Some 12345
  /\ 0 <= 12345 < 2 ^ 64.
Proof.
  exact (hdrValue_uint64_decimal [x00; x00; x00; x00; x00; x00; x30; x39] [] []
           eq_refl).
Defined.

(** C4. Header values cut short are not shown as they are.  The byte
    161 alone has no length byte to index: the decoding panics, whatever
    the capacity of the slice.  The byte 131 with two more bytes cannot
    be sliced up to index 9 when the capacity ends with the value: the
    decoding panics; when the backing array goes on, the bytes that
    follow the value are read as part of the number. *)
Theorem hdrValue_truncated_panics :
  (forall beyond, hdrValue (mkSlice [xa1] beyond) = Panic "index out of range")
  /\ hdrValue hdr_integer_cut = Panic "slice bounds out of range"
  /\ hdrValue (mkSlice [x83; x01; x02] [x00; x00; x00; x00; x00; x05; xff])
     = Ret "72620543991349253".
Proof. split; [| split]; reflexivity. Qed.

(** C6. With a length byte of 254 or 255 the upper bound [2 + L] of the
    slice wraps around in uint8 to 0 or 1, below the lower bound 2, and
    the decoding panics however many bytes follow. *)
Theorem hdrValue_short_string_wraps (l : byte) (rest beyond : list byte) :
  254 <= byteZ l ->
  hdrValue (mkSlice (xa1 :: l :: rest) beyond) = Panic "slice bounds out of range".
Proof.
  intros Hl. pose proof (byteZ_range l) as Hr. unfold hdrValue.
  rewrite bool_decide_true by (cbn; lia).
  cbn [index elems lookup list_lookup mbind go_bind].
  change (byteZ xa1 =? 161) with true. cbv iota.
  assert (Hhi : (Z.to_nat (uint8_add 2 (byteZ l)) < 2)%nat).
  { unfold uint8_add.
    replace (2 + byteZ l) with (byteZ l - 254 + 1 * 256) by lia.
    rewrite Z.mod_add by lia. rewrite Z.mod_small by lia. lia. }
  unfold reslice. case_bool_decide; [| reflexivity].
  rewrite bool_decide_false by lia. reflexivity.
Qed.

Lemma hdrValue_short_string_wraps_witness :
  hdrValue hdr_long_string = Panic "slice bounds out of range".
Proof.
  apply (hdrValue_short_string_wraps xfe (repeat x61 254) []).
  vm_compute. discriminate.
Defined.


(** ** The retry loop *)

(** The timer made in a turn of the loop is not ready in that turn. *)
Lemma timer_not_ready (t d : Z) : 0 < d -> ready (time_After t d) t = false.
Proof. intros Hd. unfold ready, time_After. apply Z.leb_gt. lia. Qed.

Lemma retry_iter_offsetsRetry (ldr : Broker) (s : RetryState) :
  retry_iter ldr offsetsRetry s =
  match (GetAvailableOffsets ldr (attempts s)).2 with
  | Ok offsets =>
      Succeeded offsets
        {| attempts := S (attempts s);
           now := now s + (GetAvailableOffsets ldr (attempts s)).1;
           err := None |}
  | Err e =>
      Failed
        {| attempts := S (attempts s);
           now := now s + (GetAvailableOffsets ldr (attempts s)).1;
           err := Some e |}
  end.
Proof.
  unfold retry_iter. rewrite timer_not_ready by reflexivity. reflexivity.
Qed.

(** Were the timer ready before any attempt, the loop would return no
    offsets and no error. *)
Example retry_timed_out_without_error (ldr : Broker) :
  getAvailableOffsetsRetry 1 ldr 0 retry_start = TimedOut None.
Proof. reflexivity. Qed.

(** X1. The loop returns the offsets of the first attempt that succeeds. *)
Lemma getAvailableOffsetsRetry_success (ldr : Broker) (offsets : OffsetResponse) (k : nat) :
  forall (s : RetryState) (fuel : nat),
  (forall i, (i < k)%nat ->
     exists e, (GetAvailableOffsets ldr (attempts s + i)).2 = Err e) ->
  (GetAvailableOffsets ldr (attempts s + k)).2 = Ok offsets ->
  (k < fuel)%nat ->
  exists s', getAvailableOffsetsRetry fuel ldr offsetsRetry s = Succeeded offsets s'
             /\ attempts s' = S (attempts s + k).
Proof.
  induction k as [| k IH]; intros s fuel Hfail Hok Hfuel;
    (destruct fuel as [| fuel]; [lia |]);
    cbn [getAvailableOffsetsRetry]; rewrite retry_iter_offsetsRetry.
  - rewrite Nat.add_0_r in Hok. rewrite Hok. eexists. split; [reflexivity |].
    cbn. lia.
  - destruct (Hfail 0%nat ltac:(lia)) as [e He].
    rewrite Nat.add_0_r in He. rewrite He.
    edestruct (IH {| attempts := S (attempts s);
                     now := now s + (GetAvailableOffsets ldr (attempts s)).1;
                     err := Some e |} fuel) as [s' [Hs' Hn]].
    + intros i Hi. cbn [attempts].
      replace (S (attempts s) + i)%nat with (attempts s + S i)%nat by lia.
      apply Hfail. lia.
    + cbn [attempts].
      replace (S (attempts s) + k)%nat with (attempts s + S k)%nat by lia.
      exact Hok.
    + lia.
    + exists s'. split; [exact Hs' |]. rewrite Hn. cbn [attempts]. lia.
Qed.

(** C1. Against a leader whose every answer is an error the loop is
    still running after any number of turns, having made one attempt
    per turn: the deadline never ends it. *)
Theorem getAvailableOffsetsRetry_unbounded (ldr : Broker) :
  always_fails ldr ->
  forall (fuel : nat) (s : RetryState),
  exists s', getAvailableOffsetsRetry fuel ldr offsetsRetry s = Failed s'
             /\ attempts s' = (attempts s + fuel)%nat.
Proof.
  intros Hfail fuel. induction fuel as [| fuel IH]; intros s.
  - exists s. split; [reflexivity | lia].
  - cbn [getAvailableOffsetsRetry]. rewrite retry_iter_offsetsRetry.
    destruct (Hfail (attempts s)) as [e He]. rewrite He.
    edestruct IH as [s' [Hs' Hn]]. exists s'. split; [exact Hs' |].
    rewrite Hn. cbn [attempts]. lia.
Qed.

Lemma getAvailableOffsetsRetry_unbounded_witness :
  exists s', getAvailableOffsetsRetry 1000 broker_down offsetsRetry retry_start
             = Failed s'
             /\ attempts s' = (attempts retry_start + 1000)%nat.
Proof.
  apply (getAvailableOffsetsRetry_unbounded broker_down).
  intros n. exists "connection refused". reflexivity.
Defined.

(** A thousand failed attempts of one millisecond each: twice the
    deadline has gone by and the loop has not returned. *)
Example retry_past_the_deadline :
  getAvailableOffsetsRetry 1000 broker_down offsetsRetry retry_start
  = Failed {| attempts := 1000; now := 2 * offsetsRetry;
              err := Some "connection refused" |}.
Proof. vm_compute. reflexivity. Qed.

(** ** Rendering one message *)

Lemma append_assoc (a b c : string) : (a +:+ b) +:+ c = a +:+ (b +:+ c).
Proof.
  induction a as [| x a IH]; [reflexivity |].
  change (String x ((a +:+ b) +:+ c) = String x (a +:+ (b +:+ c))).
  f_equal. exact IH.
Qed.

Lemma append_empty_r (a : string) : a +:+ "" = a.
Proof.
  induction a as [| x a IH]; [reflexivity |].
  change (String x (a +:+ "") = String x a). f_equal. exact IH.
Qed.

Lemma decode_diagnostic_nonempty (e : error) : decode_diagnostic e <> "".
Proof. unfold decode_diagnostic. cbn. discriminate. Qed.

Section RenderFacts.
Context (env : Env).

Lemma extends_refl (p : Pen env) : extends env p p.
Proof. exists "". symmetry. apply append_empty_r. Qed.

Lemma extends_trans (p q r : Pen env) :
  extends env p q -> extends env q r -> extends env p r.
Proof.
  intros [m1 H1] [m2 H2]. exists (m1 +:+ m2).
  rewrite H2, H1. apply append_assoc.
Qed.

Lemma Fprintf_w_extends (p : Pen env) (text : string) :
  extends env p (Fprintf_w env p text).
Proof. eexists. reflexivity. Qed.

Lemma Fprintf_stderr_extends (p : Pen env) (text : string) :
  extends env p (Fprintf_stderr env p text).
Proof. eexists. reflexivity. Qed.

Lemma print_key_extends (msg : ConsumerMessage.t) (p : Pen env) :
  extends env p (print_key env msg p).
Proof.
  unfold print_key. case_bool_decide; [| apply extends_refl].
  destruct (avroDecode _ _).2.
  - eapply extends_trans; [apply Fprintf_stderr_extends | apply Fprintf_w_extends].
  - apply Fprintf_w_extends.
Qed.

(** Headers that all decode are all printed. *)
Lemma print_headers_returns (hdrs : list RecordHeader.t) :
  Forall (fun hdr => exists v, hdrValue (RecordHeader.Value hdr) = Ret v) hdrs ->
  forall p, exists q, print_headers env hdrs p = Ret q /\ extends env p q.
Proof.
  induction 1 as [| hdr hdrs [v Hv] _ IH]; intros p; cbn [print_headers].
  - exists p. split; [reflexivity | apply extends_refl].
  - rewrite Hv. cbn [mbind go_bind].
    destruct (IH (Fprintf_w env p (header_line hdr v))) as [q [Hq Hext]].
    exists q. split; [exact Hq |].
    eapply extends_trans; [apply Fprintf_w_extends | exact Hext].
Qed.

(** One header that does not decode stops the loop with a panic. *)
Lemma print_headers_panics (hdrs : list RecordHeader.t) :
  Exists (fun hdr => exists m, hdrValue (RecordHeader.Value hdr) = Panic m) hdrs ->
  forall p, exists m, print_headers env hdrs p = Panic m.
Proof.
  induction 1 as [hdr hdrs [m Hm] | hdr hdrs _ IH]; intros p; cbn [print_headers].
  - rewrite Hm. exists m. reflexivity.
  - destruct (hdrValue (RecordHeader.Value hdr)) as [v | m]; cbn [mbind go_bind].
    + apply IH.
    + exists m. reflexivity.
Qed.

(** A key that does not decode is reported in the buffer. *)
Lemma print_key_diagnostic (msg : ConsumerMessage.t) (p : Pen env) (e : error) :
  (0 < len (ConsumerMessage.Key msg))%nat ->
  (avroDecode (schemaCache env) (ConsumerMessage.Key msg)).2 = Some e ->
  exists more, (print_key env msg p).2 = p.2 +:+ decode_diagnostic e +:+ more.
Proof.
  intros Hlen He. unfold print_key. rewrite bool_decide_true by exact Hlen.
  rewrite He. unfold Fprintf_w, Fprintf_stderr. cbn [fst snd].
  eexists. apply append_assoc.
Qed.

(** X6. The message loop gives each message one rendering when its headers
    decode: a failed decode of the value is reported at the head of the
    diagnostics, a failed decode of the key further on, and the bytes
    the decoder returned for the value are shown, formatted when the
    formatter accepts them. *)
Lemma renderMessage_returns (msg : ConsumerMessage.t) :
  Forall (fun hdr => exists v, hdrValue (RecordHeader.Value hdr) = Ret v)
    (ConsumerMessage.Headers msg) ->
  exists diag data,
    renderMessage env msg = Ret (diag, data)
    /\ (forall e, (avroDecode (schemaCache env) (ConsumerMessage.Value msg)).2 = Some e ->
          exists more, diag = decode_diagnostic e +:+ more)
    /\ (forall e, raw env = false -> (0 < len (ConsumerMessage.Key msg))%nat ->
          (avroDecode (schemaCache env) (ConsumerMessage.Key msg)).2 = Some e ->
          exists head more, diag = head +:+ decode_diagnostic e +:+ more)
    /\ ((raw env = true
         \/ exists e, prettyjson_Format env
                        (elems (avroDecode (schemaCache env) (ConsumerMessage.Value msg)).1)
                      = Err e) ->
        data = string_of_slice (avroDecode (schemaCache env) (ConsumerMessage.Value msg)).1).
Proof.
  intros Hhdrs. unfold renderMessage.
  set (r := avroDecode (schemaCache env) (ConsumerMessage.Value msg)).
  destruct (raw env) eqn:Hraw; cbn [negb].
  - eexists _, _. split; [reflexivity |]. split; [| split].
    + intros e He. rewrite He. exists "". symmetry. apply append_empty_r.
    + discriminate.
    + reflexivity.
  - match goal with
    | |- context [print_headers env _ ?p0] =>
        destruct (print_headers_returns _ Hhdrs p0) as [q [Hq Hext]];
        assert (Hp0 : exists more0, p0.2
                  = match r.2 with Some e => decode_diagnostic e | None => "" end
                    +:+ more0)
    end.
    { case_bool_decide; eexists; cbn [snd Fprintf_w]; [reflexivity |].
      symmetry. apply append_empty_r. }
    rewrite Hq. cbn [mbind go_bind]. eexists _, _. split; [reflexivity |].
    split; [| split].
    + intros e He. destruct Hp0 as [more0 Hp0].
      destruct Hext as [m1 H1].
      destruct (print_key_extends msg q) as [m2 H2].
      unfold Flush, Fprintf_w. cbn [fst snd].
      rewrite H2, H1, Hp0, He. rewrite !append_assoc. eexists. reflexivity.
    + intros e _ Hlen He.
      destruct (print_key_diagnostic msg q e Hlen He) as [more Hk].
      unfold Flush, Fprintf_w. cbn [fst snd]. rewrite Hk.
      rewrite !append_assoc. eexists _, _. reflexivity.
    + intros [Habs | [e He]]; [discriminate | rewrite He; reflexivity].
Qed.

End RenderFacts.

(** C5. With the raw toggle off, a message one of whose header values
    makes the header decoding panic is not rendered at all, whether the
    decoding of its value failed or not. *)
Theorem renderMessage_header_panic (env : Env) (msg : ConsumerMessage.t) :
  raw env = false ->
  Exists (fun hdr => exists m, hdrValue (RecordHeader.Value hdr) = Panic m)
    (ConsumerMessage.Headers msg) ->
  exists m, renderMessage env msg = Panic m.
Proof.
  intros Hraw Hbad. unfold renderMessage. rewrite Hraw. cbn [negb].
  match goal with
  | |- context [print_headers env _ ?p0] =>
      destruct (print_headers_panics env _ Hbad p0) as [m Hm]
  end.
  rewrite Hm. exists m. reflexivity.
Qed.

(** C10. With the raw toggle on, the payload is the bytes the decoder
    returned, and the diagnostics buffer holds the decode error of the
    value when there is one and nothing else. *)
Theorem renderMessage_raw (env : Env) (msg : ConsumerMessage.t) :
  raw env = true ->
  renderMessage env msg =
  Ret (match (avroDecode (schemaCache env) (ConsumerMessage.Value msg)).2 with
       | Some e => decode_diagnostic e
       | None => ""
       end,
       string_of_slice (avroDecode (schemaCache env) (ConsumerMessage.Value msg)).1).
Proof. intros Hraw. unfold renderMessage. rewrite Hraw. reflexivity. Qed.

(** ** The goroutines *)

Section ConsumeFacts.
Context (env : Env).

Lemma run_snoc (sched : list nat) (g : nat) :
  run env (sched ++ [g]) = step env (run env sched) g.
Proof. unfold run. apply foldl_snoc. Qed.

(** A property of the start that every step of a goroutine keeps holds
    after every schedule. *)
Lemma run_invariant (I : Proc -> Prop) :
  I (start env) ->
  (forall P g G, status P = Running -> goroutines P !! g = Some G ->
     I P -> I (step_goroutine env g G P)) ->
  forall sched, I (run env sched).
Proof.
  intros Hstart Hstep sched. induction sched as [| g sched IH] using rev_ind.
  - exact Hstart.
  - rewrite run_snoc. unfold step.
    destruct (status (run env sched)) eqn:Hst; try exact IH.
    destruct (goroutines (run env sched) !! g) as [G |] eqn:HG; [| exact IH].
    apply Hstep; assumption.
Qed.

Lemma lookup_goto (g h : nat) (G : Goroutine) (c : PC) (P : Proc) :
  goroutines P !! g = Some G ->
  goroutines (goto g G c P) !! h
  = if decide (h = g) then Some {| partition := partition G; pc := c |}
    else goroutines P !! h.
Proof.
  intros HG. cbn [goto goroutines]. destruct (decide (h = g)) as [-> | Hne].
  - apply list_lookup_insert_eq. eapply lookup_lt_Some, HG.
  - apply list_lookup_insert_ne. congruence.
Qed.

Lemma snoc_split {A : Type} (l before after : list A) (x c : A) :
  (l ++ [x] = before ++ c :: after)%list ->
  (after = [] /\ c = x /\ before = l)
  \/ exists after', after = (after' ++ [x])%list /\ l = (before ++ c :: after')%list.
Proof.
  intros H. destruct after as [| y after _] using rev_ind.
  - left. apply app_inj_tail in H. destruct H; auto.
  - right. exists after.
    change (l ++ [x] = before ++ (c :: after) ++ [y])%list in H.
    rewrite app_assoc in H. apply app_inj_tail in H. destruct H as [-> ->]. auto.
Qed.

Lemma lookup_started (parts : list Z) (g : nat) (G : Goroutine) :
  map (fun p => {| partition := p; pc := AtLeader |}) parts !! g = Some G ->
  pc G = AtLeader /\ partition G ∈ parts.
Proof.
  intros H. change (map ?f parts) with (f <$> parts) in H.
  rewrite list_lookup_fmap in H.
  destruct (parts !! g) as [p |] eqn:Hp; [| discriminate].
  cbn in H. injection H as <-. split; [reflexivity |].
  cbn. eapply list_elem_of_lookup_2, Hp.
Qed.

Lemma standing_start : standing env (start env).
Proof.
  assert (Hnil : forall P, goroutines P = [] -> trace P = [] ->
            offset P = initialOffset (offsetFlag env) -> standing env P).
  { intros P Hg Ht Ho. unfold standing. rewrite Hg, Ht. split; [| split].
    - intros g G H. rewrite lookup_nil in H. discriminate.
    - intros g p o before after H. destruct before; discriminate.
    - intros _. split; [exact Ho |]. intros g p o H. inversion H. }
  unfold start.
  destruct (NewConsumerFromClient (client env)); [apply Hnil; reflexivity |].
  destruct (Partitions (client env) (topic env)) as [parts |] eqn:Hparts;
    [| apply Hnil; reflexivity].
  unfold standing. cbn [goroutines trace offset]. split; [| split].
  - intros g G H. apply lookup_started in H as [Hpc Hin]. rewrite Hpc.
    split; [| discriminate]. split; [| exact I]. exists parts. auto.
  - intros g p o before after H. destruct before; discriminate.
  - intros _. split; [reflexivity |]. intros g p o H. inversion H.
Qed.


(** [standing] reads the goroutines, the trace and the shared offset. *)
Lemma standing_ext (P Q : Proc) :
  goroutines Q = goroutines P -> trace Q = trace P -> offset Q = offset P ->
  standing env P -> standing env Q.
Proof. unfold standing. intros -> -> ->. exact id. Qed.

(** A step that changes nothing [standing] reads. *)
Ltac unchanged H :=
  eapply standing_ext; [reflexivity | reflexivity | reflexivity | exact H].

Lemma standing_emit (P : Proc) (g : nat) (G : Goroutine) (a : Action) :
  goroutines P !! g = Some G ->
  (forall p o, a = CallConsumePartition p o ->
     p = partition G /\ o = offset P /\ probed (pc G) = true) ->
  standing env P -> standing env (emit g a P).
Proof.
  intros HG Ha (Hgo & Hbefore & Hquiet). unfold standing.
  cbn [emit goroutines trace offset]. split; [| split].
  - intros h H HH. destruct (Hgo h H HH) as [Ho Hp]. split; [exact Ho |].
    intros Hpr. apply elem_of_app. left. auto.
  - intros h p o before after Heq.
    apply snoc_split in Heq as [(-> & Hc & ->) | (after' & -> & Heq)].
    + injection Hc as -> Hc. destruct (Ha p o (eq_sym Hc)) as (-> & _ & Hpr).
      apply (Hgo _ _ HG). exact Hpr.
    + eapply Hbefore, Heq.
  - intros Hq. destruct (Hquiet Hq) as [Ho Hall]. split; [exact Ho |].
    intros h p o Hin. apply elem_of_app in Hin as [Hin | Hin].
    + eapply Hall, Hin.
    + apply list_elem_of_singleton in Hin. injection Hin as -> Hc.
      destruct (Ha p o (eq_sym Hc)) as (_ & -> & _). exact Ho.
Qed.

Lemma standing_goto (P : Proc) (g : nat) (G : Goroutine) (c : PC) :
  goroutines P !! g = Some G ->
  origin env (partition G) c ->
  (probed c = true -> (g, CallGetAvailableOffsets (partition G)) ∈ trace P) ->
  standing env P -> standing env (goto g G c P).
Proof.
  intros HG Ho Hp (Hgo & Hbefore & Hquiet). unfold standing.
  split; [| split; [exact Hbefore | exact Hquiet]].
  intros h H HH. rewrite (lookup_goto g h G c P HG) in HH.
  destruct (decide (h = g)) as [-> | Hne].
  - injection HH as <-. cbn [partition pc]. split; assumption.
  - apply (Hgo h H HH).
Qed.

Lemma origin_partition (p : Z) (c c' : PC) :
  origin env p c ->
  match c' with AtRetry _ _ | AtFollow (Some _) => False | _ => True end ->
  origin env p c'.
Proof.
  intros [Hparts _] Hc. split; [exact Hparts |].
  destruct c' as [| | [|] | | | | | | | | |]; done.
Qed.

Lemma standing_step (P : Proc) (g : nat) (G : Goroutine) :
  status P = Running -> goroutines P !! g = Some G ->
  standing env P -> standing env (step_goroutine env g G P).
Proof.
  intros _ HG HP. pose proof HP as (Hgo & Hbefore & Hquiet).
  destruct (Hgo g G HG) as [Horigin Hprobed].
  unfold step_goroutine.
  destruct (pc G) as [| ldr s | [offsets |] | | | [| msg rest] | e d rest
                      | e d rest | d rest | rest | rest |] eqn:Hpc.
  - (* AtLeader *)
    assert (HP1 : standing env (emit g (CallLeader (partition G)) P)).
    { eapply standing_emit; [exact HG | discriminate | exact HP]. }
    destruct (Leader (client env) (topic env) (partition G)) as [ldr | e] eqn:Hldr.
    + apply standing_goto; [exact HG | | discriminate | exact HP1].
      split; [apply Horigin | exact Hldr].
    + unchanged HP1.
  - (* AtRetry *)
    assert (HP1 : standing env (emit g (CallGetAvailableOffsets (partition G)) P)).
    { eapply standing_emit; [exact HG | discriminate | exact HP]. }
    destruct (retry_iter ldr offsetsRetry s) as [[e |] | offsets s' | s'] eqn:Hit.
    + unchanged HP.
    + apply standing_goto; [exact HG | | discriminate | exact HP].
      eapply origin_partition; [exact Horigin | exact I].
    + apply standing_goto; [exact HG | | | exact HP1].
      * split; [apply Horigin |]. exists ldr, (attempts s).
        split; [apply Horigin |].
        unfold retry_iter in Hit. destruct (ready _ _); [discriminate |].
        destruct (GetAvailableOffsets ldr (attempts s)).2; [| discriminate].
        injection Hit as -> _. reflexivity.
      * intros _. cbn [emit trace]. apply elem_of_app. right.
        apply list_elem_of_singleton. reflexivity.
    + apply standing_goto; [exact HG | | discriminate | exact HP1].
      split; apply Horigin.
  - (* AtFollow, an answer *)
    destruct (GetBlock offsets (topic env) (partition G)) as [b |] eqn:Hb;
      [| unchanged HP].
    destruct (follow env && (0 <? wrap64 (BlockOffset b - 1))) eqn:Hcond.
    + apply andb_true_iff in Hcond as [Hfollow Hpos]. apply Z.ltb_lt in Hpos.
      assert (HP1 : standing env (set_offset (wrap64 (BlockOffset b - 1)) P)).
      { unfold standing. cbn [set_offset goroutines trace offset].
        split; [exact Hgo | split; [exact Hbefore |]].
        intros [Hq | Hq]; [congruence |]. exfalso.
        destruct Horigin as [(parts & Hparts & Hin) (ldr & n & Hldr & Hres)].
        specialize (Hq parts (partition G) ldr n offsets b Hparts Hin Hldr Hres Hb).
        lia. }
      apply standing_goto; [exact HG | | | exact HP1].
      * eapply origin_partition; [exact Horigin | exact I].
      * intros _. apply Hprobed. reflexivity.
    + apply standing_goto; [exact HG | | | exact HP].
      * eapply origin_partition; [exact Horigin | exact I].
      * intros _. apply Hprobed. reflexivity.
  - (* AtFollow, no answer *)
    unchanged HP.
  - (* AtStarting *)
    apply standing_goto.
    + exact HG.
    + eapply origin_partition; [exact Horigin | exact I].
    + intros _. cbn [emit trace]. apply elem_of_app. left. apply Hprobed. reflexivity.
    + eapply standing_emit; [exact HG | discriminate | exact HP].
  - (* AtConsume *)
    assert (HP1 : standing env (emit g (CallConsumePartition (partition G) (offset P)) P)).
    { eapply standing_emit; [exact HG | | exact HP].
      intros p o Heq. injection Heq as <- <-. rewrite Hpc. auto. }
    destruct (ConsumePartition _ _ _ _) as [msgs | e].
    + apply standing_goto; [exact HG | | | exact HP1].
      * eapply origin_partition; [exact Horigin | exact I].
      * intros _. cbn [emit trace]. apply elem_of_app. left. apply Hprobed. reflexivity.
    + unchanged HP1.
  - (* AtMessages, closed *)
    apply standing_goto; [exact HG | | | exact HP].
    + eapply origin_partition; [exact Horigin | exact I].
    + intros _. apply Hprobed. reflexivity.
  - (* AtMessages, a message *)
    destruct (renderMessage env msg) as [r | m].
    + apply standing_goto; [exact HG | | | exact HP].
      * eapply origin_partition; [exact Horigin | exact I].
      * intros _. apply Hprobed. reflexivity.
    + unchanged HP.
  - (* AtLock *)
    destruct (mu P); [exact HP |].
    apply standing_goto; [exact HG | | |].
    + eapply origin_partition; [exact Horigin | exact I].
    + intros _. apply Hprobed. reflexivity.
    + unchanged HP.
  - (* AtWriteStderr *)
    apply standing_goto.
    + exact HG.
    + eapply origin_partition; [exact Horigin | exact I].
    + intros _. cbn [emit trace]. apply elem_of_app. left. apply Hprobed. reflexivity.
    + eapply standing_emit; [exact HG | discriminate | exact HP].
  - (* AtWriteStdout *)
    apply standing_goto.
    + exact HG.
    + eapply origin_partition; [exact Horigin | exact I].
    + intros _. cbn [emit trace]. apply elem_of_app. left. apply Hprobed. reflexivity.
    + eapply standing_emit; [exact HG | discriminate | exact HP].
  - (* AtPrint *)
    apply standing_goto.
    + exact HG.
    + eapply origin_partition; [exact Horigin | exact I].
    + intros _. cbn [emit trace]. apply elem_of_app. left. apply Hprobed. reflexivity.
    + eapply standing_emit; [exact HG | discriminate | exact HP].
  - (* AtUnlock *)
    apply standing_goto; [exact HG | | |].
    + eapply origin_partition; [exact Horigin | exact I].
    + intros _. apply Hprobed. reflexivity.
    + unchanged HP.
  - exact HP.
Qed.

Lemma standing_run (sched : list nat) : standing env (run env sched).
Proof. apply run_invariant; [apply standing_start | apply standing_step]. Qed.


(** ** The mutex *)

(** [serialized] reads the goroutines, the trace and the mutex. *)
Lemma serialized_ext (P Q : Proc) :
  goroutines Q = goroutines P -> trace Q = trace P -> mu Q = mu P ->
  serialized P -> serialized Q.
Proof. unfold serialized. intros -> -> ->. exact id. Qed.

(** A step that changes nothing [serialized] reads. *)
Ltac same_writes H :=
  eapply serialized_ext; [reflexivity | reflexivity | reflexivity | exact H].

Lemma writes_emit (g : nat) (a : Action) (P : Proc) :
  writes (trace (emit g a P))
  = (writes (trace P) ++ if is_write (g, a) then [(g, a)] else [])%list.
Proof.
  unfold writes. cbn [emit trace]. rewrite filter_app. f_equal.
  unfold filter, list_filter. destruct (decide (is_write (g, a))) as [H | H].
  - apply Is_true_true in H. rewrite H. reflexivity.
  - apply Is_true_false in H. rewrite H. reflexivity.
Qed.

Lemma serialized_emit_outside (P : Proc) (g : nat) (a : Action) :
  is_write (g, a) = false -> serialized P -> serialized (emit g a P).
Proof.
  intros Ha (done & evs & Hw & Hmu). exists done, evs. split; [| exact Hmu].
  rewrite writes_emit, Ha, app_nil_r. exact Hw.
Qed.

(** A goroutine outside the critical section moves to a place outside
    it. *)
Lemma serialized_goto_outside (P : Proc) (g : nat) (G : Goroutine) (c : PC) :
  goroutines P !! g = Some G -> critical (pc G) = false -> critical c = false ->
  serialized P -> serialized (goto g G c P).
Proof.
  intros HG HcG Hc (done & evs & Hw & Hmu). exists done, evs.
  split; [exact Hw |]. cbn [goto mu]. destruct (mu P) as [k |].
  - destruct Hmu as [(K & HK & Hpend) Hothers].
    assert (Hkg : k <> g).
    { intros ->. rewrite HG in HK. injection HK as <-.
      destruct (pc G); cbn in HcG, Hpend; done. }
    split.
    + exists K. split; [| exact Hpend].
      rewrite (lookup_goto g k G c P HG). destruct (decide (k = g)); done.
    + intros h H Hne HH. rewrite (lookup_goto g h G c P HG) in HH.
      destruct (decide (h = g)); [injection HH as <-; exact Hc |].
      eapply Hothers; eassumption.
  - destruct Hmu as [-> Hall]. split; [reflexivity |].
    intros h H HH. rewrite (lookup_goto g h G c P HG) in HH.
    destruct (decide (h = g)); [injection HH as <-; exact Hc |].
    eapply Hall; eassumption.
Qed.

(** A goroutine inside the critical section holds the mutex. *)
Lemma serialized_holder (P : Proc) (g : nat) (G : Goroutine) :
  goroutines P !! g = Some G -> critical (pc G) = true -> serialized P ->
  exists done evs,
    writes (trace P) = (blocks done ++ evs)%list
    /\ mu P = Some g /\ pending g (pc G) evs
    /\ forall h H, h <> g -> goroutines P !! h = Some H -> critical (pc H) = false.
Proof.
  intros HG Hc (done & evs & Hw & Hmu). exists done, evs.
  split; [exact Hw |]. destruct (mu P) as [k |].
  - destruct Hmu as [(K & HK & Hpend) Hothers].
    destruct (decide (g = k)) as [-> | Hne].
    + rewrite HG in HK. injection HK as <-. auto.
    + rewrite (Hothers g G Hne HG) in Hc. discriminate.
  - destruct Hmu as [_ Hall]. rewrite (Hall g G HG) in Hc. discriminate.
Qed.

(** The holder of the mutex moves on inside the critical section. *)
Lemma serialized_goto_inside (P Q : Proc) (g : nat) (G : Goroutine) (c : PC)
  (done : list (nat * (string * string))) (evs : list Event) :
  goroutines P !! g = Some G -> goroutines Q = goroutines P ->
  mu Q = Some g ->
  (forall h H, h <> g -> goroutines P !! h = Some H -> critical (pc H) = false) ->
  writes (trace Q) = (blocks done ++ evs)%list -> pending g c evs ->
  serialized (goto g G c Q).
Proof.
  intros HG Hgo Hmu Hothers Hw Hpend. exists done, evs. split; [exact Hw |].
  cbn [goto mu]. rewrite Hmu. rewrite <- Hgo in HG, Hothers. split.
  - exists {| partition := partition G; pc := c |}. split; [| exact Hpend].
    rewrite (lookup_goto g g G c Q HG). destruct (decide (g = g)); done.
  - intros h H Hne HH. rewrite (lookup_goto g h G c Q HG) in HH.
    destruct (decide (h = g)); [done |]. eapply Hothers; eassumption.
Qed.

(** A step from outside the critical section to outside it. *)
Ltac outside HG Hpc :=
  apply serialized_goto_outside;
  [exact HG | rewrite Hpc; reflexivity | reflexivity | try done].

Lemma blocks_snoc (done : list (nat * (string * string))) (g : nat) (e d : string) :
  blocks (done ++ [(g, (e, d))])
  = (blocks done ++ [(g, WriteStderr e); (g, WriteStdout d); (g, PrintNewline)])%list.
Proof. unfold blocks. rewrite flat_map_app. cbn. reflexivity. Qed.

Lemma serialized_start : serialized (start env).
Proof.
  assert (Hnil : forall P, goroutines P = [] -> trace P = [] -> mu P = None ->
            serialized P).
  { intros P Hg Ht Hm. exists [], []. rewrite Ht, Hm, Hg.
    split; [reflexivity |]. split; [reflexivity |].
    intros h H HH. rewrite lookup_nil in HH. discriminate. }
  unfold start.
  destruct (NewConsumerFromClient (client env)); [apply Hnil; reflexivity |].
  destruct (Partitions (client env) (topic env)) as [parts |];
    [| apply Hnil; reflexivity].
  exists [], []. cbn [trace mu goroutines]. split; [reflexivity |].
  split; [reflexivity |].
  intros h H HH. apply lookup_started in HH as [-> _]. reflexivity.
Qed.

Lemma serialized_step (P : Proc) (g : nat) (G : Goroutine) :
  status P = Running -> goroutines P !! g = Some G ->
  serialized P -> serialized (step_goroutine env g G P).
Proof.
  intros _ HG HP. unfold step_goroutine.
  destruct (pc G) as [| ldr s | [offsets |] | | | [| msg rest] | e d rest
                      | e d rest | d rest | rest | rest |] eqn:Hpc.
  - (* AtLeader *)
    assert (HP1 : serialized (emit g (CallLeader (partition G)) P))
      by (apply serialized_emit_outside; [reflexivity | exact HP]).
    destruct (Leader _ _ _).
    + outside HG Hpc.
    + same_writes HP1.
  - (* AtRetry *)
    assert (HP1 : serialized (emit g (CallGetAvailableOffsets (partition G)) P))
      by (apply serialized_emit_outside; [reflexivity | exact HP]).
    destruct (retry_iter ldr offsetsRetry s) as [[e |] | offsets s' | s'].
    + same_writes HP.
    + outside HG Hpc.
    + outside HG Hpc.
    + outside HG Hpc.
  - (* AtFollow, an answer *)
    destruct (GetBlock _ _ _) as [b |];
      [| same_writes HP].
    destruct (follow env && _).
    + outside HG Hpc.
    + outside HG Hpc.
  - same_writes HP.
  - (* AtStarting *)
    outside HG Hpc.
    apply serialized_emit_outside; [reflexivity | exact HP].
  - (* AtConsume *)
    assert (HP1 : serialized (emit g (CallConsumePartition (partition G) (offset P)) P))
      by (apply serialized_emit_outside; [reflexivity | exact HP]).
    destruct (ConsumePartition _ _ _ _).
    + outside HG Hpc.
    + same_writes HP1.
  - outside HG Hpc.
  - destruct (renderMessage env msg).
    + outside HG Hpc.
    + same_writes HP.
  - (* AtLock *)
    destruct (mu P) as [k |] eqn:Hmu; [exact HP |].
    destruct HP as (done & evs & Hw & HP). rewrite Hmu in HP.
    destruct HP as [-> Hall].
    eapply (serialized_goto_inside P); [exact HG | reflexivity | reflexivity | | exact Hw |].
    + intros h H _ HH. eapply Hall, HH.
    + reflexivity.
  - (* AtWriteStderr *)
    destruct (serialized_holder P g G HG) as (done & evs & Hw & Hmu & Hpend & Hothers);
      [rewrite Hpc; reflexivity | exact HP |].
    rewrite Hpc in Hpend. cbn in Hpend. subst evs.
    eapply (serialized_goto_inside P); [exact HG | reflexivity | exact Hmu | exact Hothers | |].
    + rewrite writes_emit, Hw. cbn [is_write snd]. rewrite app_nil_r. reflexivity.
    + exists e. reflexivity.
  - (* AtWriteStdout *)
    destruct (serialized_holder P g G HG) as (done & evs & Hw & Hmu & Hpend & Hothers);
      [rewrite Hpc; reflexivity | exact HP |].
    rewrite Hpc in Hpend. destruct Hpend as [e ->].
    eapply (serialized_goto_inside P); [exact HG | reflexivity | exact Hmu | exact Hothers | |].
    + rewrite writes_emit, Hw. cbn [is_write snd]. rewrite <- app_assoc. reflexivity.
    + exists e, d. reflexivity.
  - (* AtPrint *)
    destruct (serialized_holder P g G HG) as (done & evs & Hw & Hmu & Hpend & Hothers);
      [rewrite Hpc; reflexivity | exact HP |].
    rewrite Hpc in Hpend. destruct Hpend as (e & d & ->).
    eapply (serialized_goto_inside P _ _ _ _ (done ++ [(g, (e, d))]) []);
      [exact HG | reflexivity | exact Hmu | exact Hothers | | reflexivity].
    rewrite writes_emit, Hw. cbn [is_write snd].
    rewrite blocks_snoc, app_nil_r, <- app_assoc. reflexivity.
  - (* AtUnlock *)
    destruct (serialized_holder P g G HG) as (done & evs & Hw & Hmu & Hpend & Hothers);
      [rewrite Hpc; reflexivity | exact HP |].
    rewrite Hpc in Hpend. cbn in Hpend. subst evs.
    exists done, []. split; [exact Hw |]. cbn [goto set_mu mu].
    split; [reflexivity |].
    intros h H HH.
    rewrite (lookup_goto g h G _ (set_mu None P) HG) in HH.
    destruct (decide (h = g)); [injection HH as <-; reflexivity |].
    eapply Hothers; eassumption.
  - exact HP.
Qed.

Lemma serialized_run (sched : list nat) : serialized (run env sched).
Proof. apply run_invariant; [apply serialized_start | apply serialized_step]. Qed.


(** X7. The leader is asked as soon as it is found, whatever the flags. *)
Lemma probe_is_made (g : nat) (p : Z) (partitions : list Z) (ldr : Broker) :
  NewConsumerFromClient (client env) = None ->
  Partitions (client env) (topic env) = Ok partitions ->
  partitions !! g = Some p ->
  Leader (client env) (topic env) p = Ok ldr ->
  (g, CallGetAvailableOffsets p) ∈ trace (run env [g; g]).
Proof.
  intros Hnew Hparts Hg Hldr.
  assert (HG : goroutines (start env) !! g = Some {| partition := p; pc := AtLeader |}).
  { unfold start. rewrite Hnew, Hparts. cbn [goroutines].
    change (map ?f partitions) with (f <$> partitions).
    rewrite list_lookup_fmap, Hg. reflexivity. }
  assert (Hst : status (start env) = Running).
  { unfold start. rewrite Hnew, Hparts. reflexivity. }
  assert (H1 : step env (start env) g
               = goto g {| partition := p; pc := AtLeader |} (AtRetry ldr retry_start)
                   (emit g (CallLeader p) (start env))).
  { unfold step. rewrite Hst, HG. unfold step_goroutine. cbn [pc partition].
    rewrite Hldr. reflexivity. }
  change (run env [g; g]) with (step env (step env (start env) g) g).
  rewrite H1. unfold step. cbn [goto emit status goroutines]. rewrite Hst.
  rewrite list_lookup_insert_eq by (eapply lookup_lt_Some, HG).
  unfold step_goroutine. cbn [pc partition].
  rewrite retry_iter_offsetsRetry.
  destruct (GetAvailableOffsets ldr (attempts retry_start)).2;
    cbn [goto emit trace]; apply elem_of_app; right;
    apply list_elem_of_singleton; reflexivity.
Qed.

End ConsumeFacts.

Lemma initialOffset_sentinel (flag : string) :
  (flag = "oldest" -> initialOffset flag = OffsetOldest)
  /\ (flag <> "oldest" -> initialOffset flag = OffsetNewest).
Proof.
  unfold initialOffset. split.
  - intros ->. reflexivity.
  - intros Hne. apply String.eqb_neq in Hne. rewrite Hne.
    destruct (String.eqb flag "newest"); reflexivity.
Qed.

(** ** The start offsets *)

(** C2. In every mode a goroutine has asked the leader of its partition
    for the offsets before it starts fetching; with the follow flag off
    the answer is not used and the fetch starts at the sentinel of the
    offset flag. *)
Theorem fetch_follows_probe (env : Env) (sched : list nat) (g : nat) (p o : Z)
  (before after : list Event) :
  trace (run env sched) = (before ++ (g, CallConsumePartition p o) :: after)%list ->
  (g, CallGetAvailableOffsets p) ∈ before
  /\ (follow env = false ->
      (offsetFlag env = "oldest" -> o = OffsetOldest)
      /\ (offsetFlag env = "newest" -> o = OffsetNewest)).
Proof.
  intros Htrace. destruct (standing_run env sched) as (_ & Hbefore & Hquiet).
  split; [eapply Hbefore, Htrace |].
  intros Hfollow. destruct (Hquiet (or_introl Hfollow)) as [_ Hall].
  assert (Ho : o = initialOffset (offsetFlag env)).
  { apply (Hall g p o). rewrite Htrace. apply elem_of_app. right. left. }
  destruct (initialOffset_sentinel (offsetFlag env)) as [Hold Hnew].
  split; intros Hflag; rewrite Ho; [apply Hold | apply Hnew]; rewrite Hflag;
    [reflexivity | discriminate].
Qed.

Lemma fetch_follows_probe_witness :
  (0%nat, CallGetAvailableOffsets 0)
    ∈ [(0%nat, CallLeader 0); (0%nat, CallGetAvailableOffsets 0)]
  /\ (follow env_oldest = false ->
      (offsetFlag env_oldest = "oldest" -> -2 = OffsetOldest)
      /\ (offsetFlag env_oldest = "newest" -> -2 = OffsetNewest)).
Proof.
  apply (fetch_follows_probe env_oldest [0; 0; 0; 0]%nat 0%nat 0 (-2)
           [(0%nat, CallLeader 0); (0%nat, CallGetAvailableOffsets 0)] []).
  reflexivity.
Defined.

(** Read from the oldest record with the follow flag off, the leader of
    the partition is asked all the same. *)
Lemma oldest_mode_probes :
  offsetFlag env_oldest = "oldest" /\ follow env_oldest = false
  /\ probes 0 (trace (run env_oldest [0; 0; 0; 0]%nat)) = 1%nat.
Proof. repeat split. Qed.

(** C3. When no answer of a leader gives a follow offset above zero, no
    goroutine assigns the offset, and every fetch starts at the sentinel
    of the offset flag: the oldest record for "oldest", the flag's
    default, and the newest for any other value. *)
Theorem follow_falls_back_to_flag (env : Env) (sched : list nat) (g : nat) (p o : Z) :
  follow env = true -> no_follow_offset env ->
  (g, CallConsumePartition p o) ∈ trace (run env sched) ->
  o = initialOffset (offsetFlag env)
  /\ (offsetFlag env = "oldest" -> o = OffsetOldest)
  /\ (offsetFlag env <> "oldest" -> o = OffsetNewest).
Proof.
  intros _ Hno Hin. destruct (standing_run env sched) as (_ & _ & Hquiet).
  destruct (Hquiet (or_intror Hno)) as [_ Hall].
  rewrite (Hall g p o Hin).
  split; [reflexivity | apply initialOffset_sentinel].
Qed.

Lemma follow_falls_back_to_flag_witness :
  -2 = initialOffset (offsetFlag env_follow_empty)
  /\ (offsetFlag env_follow_empty = "oldest" -> -2 = OffsetOldest)
  /\ (offsetFlag env_follow_empty <> "oldest" -> -2 = OffsetNewest).
Proof.
  apply (follow_falls_back_to_flag env_follow_empty [0; 0; 0; 0]%nat 0%nat 0 (-2)).
  - reflexivity.
  - intros partitions p ldr n offsets b _ _ Hldr Hres Hb.
    injection Hldr as <-. injection Hres as <-. injection Hb as <-.
    vm_compute. discriminate.
  - vm_compute. right. right. left.
Defined.

(** An empty partition followed with the flag at its default is read
    from the oldest record, not from the newest. *)
Lemma follow_empty_starts_oldest :
  follow env_follow_empty = true
  /\ started_at (trace (run env_follow_empty [0; 0; 0; 0]%nat)) = [(0, OffsetOldest)]
  /\ OffsetOldest <> OffsetNewest.
Proof. repeat split. discriminate. Qed.

(** C8. The offset a partition is fetched from can be the one another
    partition resolved: partition 1, empty, starts where partition 0
    follows, at 10 or at 20 as the log of partition 0 has it; and
    partition 0, which resolved 10, starts at the 20 partition 1 has
    assigned in between. *)
Theorem start_offset_is_shared :
  started_at (trace (run (env_two_partitions 11 0) sched_one_then_other))
    = [(0, 10); (1, 10)]
  /\ started_at (trace (run (env_two_partitions 21 0) sched_one_then_other))
    = [(0, 20); (1, 20)]
  /\ started_at (trace (run (env_two_partitions 11 21) sched_assign_both_first))
    = [(0, 20); (1, 20)].
Proof. repeat split. Qed.

(** ** The output *)

(** C9. Whatever the schedule, what the message loops have written is a
    sequence of whole blocks, each the three writes of one goroutine for
    one message, followed by the part already written of at most one
    more block. *)
Theorem writes_are_blocks (env : Env) (sched : list nat) :
  exists done g r n,
    (n < 3)%nat
    /\ writes (trace (run env sched)) = (blocks done ++ take n (block g r))%list.
Proof.
  destruct (serialized_run env sched) as (done & evs & Hw & Hmu).
  exists done. rewrite Hw. destruct (mu (run env sched)) as [g |].
  - destruct Hmu as [(G & _ & Hpend) _]. exists g.
    destruct (pc G); cbn in Hpend; try contradiction.
    + exists ("", ""), 0%nat. subst evs. split; [lia | reflexivity].
    + destruct Hpend as [e ->]. exists (e, ""), 1%nat. split; [lia | reflexivity].
    + destruct Hpend as (e & d & ->). exists (e, d), 2%nat.
      split; [lia | reflexivity].
    + exists ("", ""), 0%nat. subst evs. split; [lia | reflexivity].
  - destruct Hmu as [-> _]. exists 0%nat, ("", ""), 0%nat.
    split; [lia | reflexivity].
Qed.

(** Two goroutines taking turns: the block of goroutine 0 is whole
    before goroutine 1, which waits for the mutex, writes its own. *)
Example writes_alternating :
  writes (trace (run (env_two_partitions 0 0) sched_alternating))
  = (block 0 ("Partition:" +:+ TAB +:+ "0" +:+ LF +:+ "Offset:" +:+ TAB +:+ "0" +:+ LF
              +:+ "Timestamp:" +:+ TAB +:+ "0" +:+ LF, "x")
     ++ take 2 (block 1 ("Partition:" +:+ TAB +:+ "1" +:+ LF +:+ "Offset:" +:+ TAB
                         +:+ "0" +:+ LF +:+ "Timestamp:" +:+ TAB +:+ "0" +:+ LF, "x")))%list.
Proof. vm_compute. reflexivity. Qed.

Lemma renderMessage_header_panic_witness :
  exists m, renderMessage env_cut_header message_cut_header = Panic m.
Proof.
  apply (renderMessage_header_panic env_cut_header message_cut_header).
  - reflexivity.
  - apply Exists_cons_hd. exists "index out of range". reflexivity.
Defined.

(** The process panics on that message and writes nothing for it. *)
Example cut_header_stops_the_process :
  status (run env_cut_header [0; 0; 0; 0; 0; 0; 0; 0]%nat)
    = Panicked "index out of range"
  /\ writes (trace (run env_cut_header [0; 0; 0; 0; 0; 0; 0; 0]%nat)) = [].
Proof. split; reflexivity. Qed.

Lemma renderMessage_raw_witness :
  renderMessage env_raw_unknown (message 0 0 [x78] [])
  = Ret (decode_diagnostic "unknown schema", "x").
Proof.
  apply (renderMessage_raw env_raw_unknown (message 0 0 [x78] [])).
  reflexivity.
Defined.

(** With the raw toggle on, the decode error of the value reaches
    standard error. *)
Lemma raw_mode_writes_decode_error :
  raw env_raw_unknown = true
  /\ (0%nat, WriteStderr (decode_diagnostic "unknown schema"))
       ∈ trace (run env_raw_unknown [0; 0; 0; 0; 0; 0; 0]%nat)
  /\ decode_diagnostic "unknown schema" <> "".
Proof.
  split; [reflexivity |]. split; [| apply decode_diagnostic_nonempty].
  vm_compute. do 3 right. left.
Qed.

(** ** What a goroutine delivers *)
Section DeliveryFacts.
Context (env : Env).












End DeliveryFacts.


(** ** Following the head of the log *)

Section FollowingFacts.
Context (env : Env) (F : Z).
Hypothesis Hfollow : follow env = true.
Hypothesis HF : 0 < F.
Hypothesis Hanswers : follow_offset_is env F.

Lemma following_ext (P Q : Proc) :
  goroutines Q = goroutines P -> trace Q = trace P -> offset Q = offset P ->
  following F P -> following F Q.
Proof. unfold following. intros -> -> ->. exact id. Qed.

Lemma following_emit (P : Proc) (g : nat) (a : Action) :
  (forall p o, a = CallConsumePartition p o -> o = F) ->
  following F P -> following F (emit g a P).
Proof.
  intros Ha [Hoff Hcons]. split; [exact Hoff |].
  intros h p o Hin. cbn [emit trace] in Hin.
  apply elem_of_app in Hin as [Hin | Hin]; [eapply Hcons, Hin |].
  apply list_elem_of_singleton in Hin. injection Hin as _ Heq.
  eapply Ha. symmetry. exact Heq.
Qed.

Lemma following_goto (P : Proc) (g : nat) (G : Goroutine) (c : PC) :
  goroutines P !! g = Some G ->
  (settled c = true -> offset P = F) ->
  following F P -> following F (goto g G c P).
Proof.
  intros HG Hc [Hoff Hcons]. split; [| exact Hcons].
  intros h H HH Hs. rewrite (lookup_goto g h G c P HG) in HH.
  destruct (decide (h = g)); [injection HH as <-; auto |].
  eapply Hoff; eassumption.
Qed.

Lemma following_start : following F (start env).
Proof.
  split.
  - intros g G H Hs. exfalso. unfold start in H.
    destruct (NewConsumerFromClient (client env));
      [cbn in H; try rewrite lookup_nil in H; discriminate |].
    destruct (Partitions (client env) (topic env));
      [| cbn in H; try rewrite lookup_nil in H; discriminate].
    apply lookup_started in H as [Hpc _]. rewrite Hpc in Hs. discriminate.
  - intros g p o H. unfold start in H.
    destruct (NewConsumerFromClient (client env)); [inversion H |].
    destruct (Partitions (client env) (topic env)); inversion H.
Qed.

Ltac same H := eapply following_ext; [reflexivity | reflexivity | reflexivity | exact H].

Lemma following_step (P : Proc) (g : nat) (G : Goroutine) :
  status P = Running -> goroutines P !! g = Some G ->
  standing env P /\ following F P ->
  standing env (step_goroutine env g G P) /\ following F (step_goroutine env g G P).
Proof.
  intros Hrun HG [Hst HP]. split; [apply standing_step; assumption |].
  destruct Hst as (Hgo & _ & _). destruct (Hgo g G HG) as [Horigin _].
  pose proof HP as [Hoff _]. specialize (Hoff g G HG).
  unfold step_goroutine.
  destruct (pc G) as [| ldr s | [offsets |] | | | [| msg rest] | e d rest
                      | e d rest | d rest | rest | rest |] eqn:Hpc;
    cbn [settled] in Hoff.
  - assert (HP1 : following F (emit g (CallLeader (partition G)) P))
      by (apply following_emit; [discriminate | exact HP]).
    destruct (Leader _ _ _); [| same HP1].
    apply following_goto; [exact HG | discriminate | exact HP1].
  - assert (HP1 : following F (emit g (CallGetAvailableOffsets (partition G)) P))
      by (apply following_emit; [discriminate | exact HP]).
    destruct (retry_iter _ _ _) as [[e |] | offsets s' | s'];
      [same HP | | |]; (apply following_goto; [exact HG | discriminate | assumption]).
  - destruct (GetBlock _ _ _) as [b |] eqn:Hb; [| same HP].
    destruct Horigin as [(parts & Hparts & Hin) (ldr & n & Hldr & Hres)].
    rewrite (Hanswers parts (partition G) ldr n offsets b Hparts Hin Hldr Hres Hb).
    rewrite Hfollow. apply Z.ltb_lt in HF. rewrite HF. cbn [andb].
    apply following_goto; [exact HG | reflexivity |].
    destruct HP as [_ Hcons]. split; [reflexivity | exact Hcons].
  - same HP.
  - apply following_goto; [exact HG | intros _; apply Hoff; reflexivity |].
    apply following_emit; [discriminate | exact HP].
  - assert (HP1 : following F (emit g (CallConsumePartition (partition G) (offset P)) P)).
    { apply following_emit; [| exact HP]. intros p o Heq. injection Heq as _ <-.
      apply Hoff. reflexivity. }
    destruct (ConsumePartition _ _ _ _); [| same HP1].
    apply following_goto; [exact HG | intros _; apply Hoff; reflexivity | exact HP1].
  - apply following_goto; [exact HG | intros _; apply Hoff; reflexivity | exact HP].
  - destruct (renderMessage env msg); [| same HP].
    apply following_goto; [exact HG | intros _; apply Hoff; reflexivity | exact HP].
  - destruct (mu P); [exact HP |].
    apply following_goto; [exact HG | intros _; apply Hoff; reflexivity |]. same HP.
  - apply following_goto; [exact HG | intros _; apply Hoff; reflexivity |].
    apply following_emit; [discriminate | exact HP].
  - apply following_goto; [exact HG | intros _; apply Hoff; reflexivity |].
    apply following_emit; [discriminate | exact HP].
  - apply following_goto; [exact HG | intros _; apply Hoff; reflexivity |].
    apply following_emit; [discriminate | exact HP].
  - apply following_goto; [exact HG | intros _; apply Hoff; reflexivity |]. same HP.
  - exact HP.
Qed.

Lemma following_run (sched : list nat) : following F (run env sched).
Proof.
  apply (run_invariant env (fun P => standing env P /\ following F P)).
  - split; [apply standing_start | apply following_start].
  - intros P g G. apply following_step.
Qed.

End FollowingFacts.


(** X9. With the follow flag on, when the probe of every partition of
    the topic gives the same follow offset above zero, as on a topic of
    one partition, every fetch starts at that offset. *)
Theorem follow_starts_at_head (env : Env) (F : Z) (sched : list nat) (g : nat) (p o : Z) :
  follow env = true -> 0 < F -> follow_offset_is env F ->
  (g, CallConsumePartition p o) ∈ trace (run env sched) -> o = F.
Proof.
  intros Hfollow HF Hanswers Hin.
  destruct (following_run env F Hfollow HF Hanswers sched) as [_ Hcons].
  eapply Hcons, Hin.
Qed.

Lemma follow_starts_at_head_witness : wrap64 (11 - 1) = 10.
Proof.
  apply (follow_starts_at_head env_follow_one 10 [0; 0; 0; 0; 0]%nat 0%nat 0
           (wrap64 (11 - 1))).
  - reflexivity.
  - lia.
  - intros partitions p ldr n offsets b _ _ Hldr Hres Hb.
    injection Hldr as <-. injection Hres as <-. injection Hb as <-. reflexivity.
  - vm_compute. do 3 right. left.
Defined.

(** X11. The mutex is held by goroutine [g] exactly when [g] stands
    between [mu.Lock()] and [mu.Unlock()]. *)
Theorem mutex_held_by_writer (env : Env) (sched : list nat) (g : nat) :
  mu (run env sched) = Some g
  <-> exists G, goroutines (run env sched) !! g = Some G /\ critical (pc G) = true.
Proof.
  pose proof (serialized_run env sched) as HS. split.
  - intros Hmu. destruct HS as (done & evs & _ & H). rewrite Hmu in H.
    destruct H as [(G & HG & Hpend) _]. exists G. split; [exact HG |].
    destruct (pc G); cbn in Hpend; try contradiction; reflexivity.
  - intros (G & HG & Hc).
    destruct (serialized_holder _ g G HG Hc HS) as (_ & _ & _ & Hmu & _).
    exact Hmu.
Qed.

(** X10. With the follow flag off, any value of the offset flag other
    than "oldest", a number included, starts every fetch at the newest
    record. *)
Theorem other_flag_reads_newest (env : Env) (sched : list nat) (g : nat) (p o : Z) :
  follow env = false -> offsetFlag env <> "oldest" ->
  (g, CallConsumePartition p o) ∈ trace (run env sched) -> o = OffsetNewest.
Proof.
  intros Hfollow Hflag Hin. destruct (standing_run env sched) as (_ & _ & Hquiet).
  destruct (Hquiet (or_introl Hfollow)) as [_ Hall]. rewrite (Hall g p o Hin).
  apply initialOffset_sentinel. exact Hflag.
Qed.

Lemma other_flag_reads_newest_witness : -1 = OffsetNewest.
Proof.
  apply (other_flag_reads_newest env_numeric_flag [0; 0; 0; 0]%nat 0%nat 0 (-1)).
  - reflexivity.
  - discriminate.
  - vm_compute. do 2 right. left.
Defined.

(** ** Header values, case by case *)

Lemma BigEndian_Uint64_returns (l beyond : list byte) :
  (8 <= length l)%nat ->
  exists u, BigEndian_Uint64 (mkSlice (take 8 l) beyond) = Ret u.
Proof.
  intros Hlen. do 8 (destruct l as [| ? l]; [cbn in Hlen; lia |]).
  eexists. reflexivity.
Qed.

Lemma reslice_inverted (v : slice) (lo hi : nat) :
  (hi < lo)%nat -> reslice v lo hi = Panic "slice bounds out of range".
Proof.
  intros H. unfold reslice. case_bool_decide; [| reflexivity].
  rewrite bool_decide_false by lia. reflexivity.
Qed.

Lemma reslice_beyond (v : slice) (lo hi : nat) :
  (cap v < hi)%nat -> reslice v lo hi = Panic "slice bounds out of range".
Proof. intros H. unfold reslice. rewrite bool_decide_false by lia. reflexivity. Qed.

Lemma reslice_within (v : slice) (lo hi : nat) :
  (lo <= hi)%nat -> (hi <= cap v)%nat ->
  reslice v lo hi
  = Ret {| elems := take (hi - lo) (drop lo (backing v));
           spare := drop hi (backing v) |}.
Proof.
  intros H1 H2. unfold reslice. rewrite !bool_decide_true by lia. reflexivity.
Qed.

(** X4. The short-string branch takes its bytes from the backing array:
    when the length byte promises more than the value holds and the
    capacity allows, the text runs on into the bytes that follow the
    value. *)
Lemma hdrValue_short_string_backing (l : byte) (rest beyond : list byte) :
  byteZ l <= 253 ->
  (Z.to_nat (byteZ l) <= length rest + length beyond)%nat ->
  hdrValue (mkSlice (xa1 :: l :: rest) beyond)
  = Ret (String.string_of_list_byte (take (Z.to_nat (byteZ l)) (rest ++ beyond))).
Proof.
  intros Hle Hcap. pose proof (byteZ_range l) as Hr. unfold hdrValue.
  rewrite bool_decide_true by (cbn; lia).
  cbn [index elems lookup list_lookup mbind go_bind].
  change (byteZ xa1 =? 161) with true. cbv iota.
  unfold uint8_add. rewrite Z.mod_small by lia.
  replace (Z.to_nat (2 + byteZ l)) with (2 + Z.to_nat (byteZ l))%nat by lia.
  unfold reslice, cap, backing. cbn [elems spare length].
  rewrite bool_decide_true by lia. rewrite bool_decide_true by lia.
  cbn [mbind go_bind]. unfold string_of_slice. cbn [elems].
  replace (2 + Z.to_nat (byteZ l) - 2)%nat with (Z.to_nat (byteZ l)) by lia.
  reflexivity.
Qed.

Lemma hdrValue_short_string_backing_witness :
  hdrValue hdr_over_read = Ret "hello".
Proof.
  apply (hdrValue_short_string_backing x05 [x68; x65] [x6c; x6c; x6f; x00]).
  - vm_compute. discriminate.
  - vm_compute. lia.
Defined.

(** X5. The header decoding panics in these cases and in no other: the
    first byte is 161 and no length byte follows, or the length byte is
    254 or 255, or two plus the length byte exceeds the capacity; the
    first byte is 131 and the capacity is below nine. *)
Theorem hdrValue_panics_iff (v : slice) :
  (exists m, hdrValue v = Panic m)
  <-> exists b0 rest,
        elems v = b0 :: rest
        /\ ((byteZ b0 = 161
             /\ (rest = []
                 \/ exists l more,
                      rest = l :: more
                      /\ (254 <= byteZ l \/ Z.of_nat (cap v) < 2 + byteZ l)))
            \/ (byteZ b0 = 131 /\ (cap v < 9)%nat)).
Proof.
  destruct v as [els beyond]. destruct els as [| b0 rest].
  { split; [intros [m H]; discriminate | intros (b0 & rest & H & _); discriminate]. }
  unfold hdrValue. rewrite bool_decide_true by (cbn; lia).
  cbn [index elems lookup list_lookup mbind go_bind].
  destruct (byteZ b0 =? 161) eqn:H161; [| destruct (byteZ b0 =? 131) eqn:H131].
  - apply Z.eqb_eq in H161. destruct rest as [| l more].
    + cbn [index elems lookup list_lookup mbind go_bind]. split.
      * intros _. exists b0, []. auto.
      * intros _. eexists. reflexivity.
    + cbn [index elems lookup list_lookup mbind go_bind].
      pose proof (byteZ_range l) as Hr. unfold uint8_add.
      destruct (Z.le_gt_cases 254 (byteZ l)) as [Hbig | Hsmall].
      * assert (Hhi : (Z.to_nat ((2 + byteZ l) mod 256) < 2)%nat).
        { replace (2 + byteZ l) with (byteZ l - 254 + 1 * 256) by lia.
          rewrite Z.mod_add by lia. rewrite Z.mod_small by lia. lia. }
        rewrite reslice_inverted by exact Hhi. split.
        -- intros _. exists b0, (l :: more). split; [reflexivity |]. left.
           split; [exact H161 |]. right. exists l, more. auto.
        -- intros _. eexists. reflexivity.
      * rewrite Z.mod_small by lia.
        destruct (Z.le_gt_cases (2 + byteZ l) (Z.of_nat (cap (mkSlice (b0 :: l :: more) beyond))))
          as [Hcap | Hcap].
        -- rewrite reslice_within by lia. cbn [mbind go_bind]. split.
           ++ intros [m H]. discriminate.
           ++ intros (c0 & r & Heq & [[_ [Hnil | (l' & more' & Hr' & Hbad)]] | [H _]]).
              ** injection Heq as _ <-. discriminate.
              ** injection Heq as _ <-. injection Hr' as <- _. lia.
              ** injection Heq as <- _. lia.
        -- rewrite reslice_beyond by lia. cbn [mbind go_bind]. split.
           ++ intros _. exists b0, (l :: more). split; [reflexivity |]. left.
              split; [exact H161 |]. right. exists l, more.
              split; [reflexivity |]. right. lia.
           ++ intros _. eexists. reflexivity.
  - apply Z.eqb_eq in H131.
    destruct (Nat.le_gt_cases 9 (cap (mkSlice (b0 :: rest) beyond))) as [Hcap | Hcap].
    + rewrite reslice_within by lia. cbn [mbind go_bind Nat.sub].
      unfold backing. cbn [elems spare app drop].
      rewrite drop_0.
      edestruct (BigEndian_Uint64_returns (rest ++ beyond)) as [u Hu].
      { unfold cap in Hcap. cbn [elems spare length] in Hcap.
        rewrite length_app. lia. }
      rewrite Hu. cbn [mbind go_bind]. split.
      * intros [m H]. discriminate.
      * intros (c0 & r & Heq & [[H _] | [_ Hbad]]).
        -- injection Heq as <- _. lia.
        -- lia.
    + rewrite reslice_beyond by lia. cbn [mbind go_bind]. split.
      * intros _. exists b0, rest. split; [reflexivity |]. right. split; [exact H131 | lia].
      * intros _. eexists. reflexivity.
  - apply Z.eqb_neq in H161, H131. split.
    + intros [m H]. discriminate.
    + intros (c0 & r & Heq & [[H _] | [H _]]); injection Heq as <- _; contradiction.
Qed.

Lemma hdrValue_verbatim_witness :
  hdrValue (bytes [x61; x62; x63]) = Ret "abc".
Proof.
  apply (hdrValue_verbatim x61 [x62; x63] []); vm_compute; discriminate.
Defined.

Lemma hdrValue_short_string_witness : hdrValue hdr_hello = Ret "hello".
Proof.
  apply (hdrValue_short_string x05 [x68; x65; x6c; x6c; x6f] [] []).
  - reflexivity.
  - vm_compute. discriminate.
Defined.

Lemma getAvailableOffsetsRetry_success_witness :
  exists s',
    getAvailableOffsetsRetry 5 broker_flaky offsetsRetry retry_start
    = Succeeded {| GetBlock := fun _ _ => Some {| BlockOffset := 7 |} |} s'
    /\ attempts s' = 3%nat.
Proof.
  apply (getAvailableOffsetsRetry_success broker_flaky _ 2 retry_start 5).
  - intros i Hi. exists "not leader for partition". cbn.
    destruct i as [| [| i]]; [reflexivity | reflexivity | lia].
  - reflexivity.
  - lia.
Defined.

Lemma renderMessage_returns_witness :
  exists diag data,
    renderMessage env_raw_unknown (message 0 0 [x78] []) = Ret (diag, data)
    /\ (forall e,
          (avroDecode (schemaCache env_raw_unknown)
             (ConsumerMessage.Value (message 0 0 [x78] []))).2 = Some e ->
          exists more, diag = decode_diagnostic e +:+ more)
    /\ (forall e, raw env_raw_unknown = false ->
          (0 < len (ConsumerMessage.Key (message 0 0 [x78] [])))%nat ->
          (avroDecode (schemaCache env_raw_unknown)
             (ConsumerMessage.Key (message 0 0 [x78] []))).2 = Some e ->
          exists head more, diag = head +:+ decode_diagnostic e +:+ more)
    /\ ((raw env_raw_unknown = true
         \/ exists e, prettyjson_Format env_raw_unknown
                        (elems (avroDecode (schemaCache env_raw_unknown)
                                  (ConsumerMessage.Value (message 0 0 [x78] []))).1)
                      = Err e) ->
        data = string_of_slice
                 (avroDecode (schemaCache env_raw_unknown)
                    (ConsumerMessage.Value (message 0 0 [x78] []))).1).
Proof.
  apply (renderMessage_returns env_raw_unknown (message 0 0 [x78] [])).
  constructor.
Defined.

Lemma probe_is_made_witness :
  (0%nat, CallGetAvailableOffsets 0) ∈ trace (run env_oldest [0; 0]%nat).
Proof.
  apply (probe_is_made env_oldest 0%nat 0 [0] (broker_at 5)); reflexivity.
Defined.

(** ** The topic commands *)

Lemma string_compare_OT (a b : string) :
  String.compare a b = OrdersEx.String_as_OT.compare a b.
Proof.
  revert b. induction a as [| x a IH]; intros [| y b]; reflexivity.
Qed.

Lemma string_ltb_lt (a b : string) :
  String.ltb a b = true <-> OrdersEx.String_as_OT.lt a b.
Proof.
  unfold String.ltb, OrdersEx.String_as_OT.lt. rewrite string_compare_OT.
  destruct (OrdersEx.String_as_OT.compare a b); split; congruence.
Qed.

Lemma string_ltb_strict_weak : strict_weak String.ltb.
Proof.
  destruct OrdersEx.String_as_OT.lt_strorder as [Hirr Htr].
  split; [| split].
  - intros a. destruct (String.ltb a a) eqn:H; [| reflexivity].
    apply string_ltb_lt in H. destruct (Hirr a H).
  - intros a b c H1 H2. apply string_ltb_lt in H1, H2. apply string_ltb_lt.
    exact (Htr a b c H1 H2).
  - intros a b c H1 H2.
    destruct (String.ltb a c) eqn:Hac; [| reflexivity]. exfalso.
    apply string_ltb_lt in Hac.
    assert (Hcb : String.ltb c b = true \/ c = b).
    { destruct (String.ltb c b) eqn:Hcb; [left; reflexivity | right].
      unfold String.ltb in H2, Hcb. rewrite String.compare_antisym in H2.
      destruct (String.compare c b) eqn:Hc; try discriminate.
      apply String.compare_eq_iff, Hc. }
    assert (Hab : OrdersEx.String_as_OT.lt a b).
    { destruct Hcb as [Hcb | <-]; [| exact Hac].
      apply string_ltb_lt in Hcb. exact (Htr a c b Hac Hcb). }
    apply string_ltb_lt in Hab. congruence.
Qed.

(** Two strings neither of which is less than the other are equal. *)
Lemma string_ltb_total (a b : string) :
  String.ltb a b = false -> String.ltb b a = false -> a = b.
Proof.
  unfold String.ltb. intros H1 H2. rewrite String.compare_antisym in H2.
  destruct (String.compare a b) eqn:H; try discriminate.
  apply String.compare_eq_iff, H.
Qed.

Lemma strict_weak_on {A B : Type} (key : A -> B) (less : B -> B -> bool) :
  strict_weak less -> strict_weak (fun a b => less (key a) (key b)).
Proof.
  intros (H1 & H2 & H3). split; [| split]; intros; eauto.
Qed.

Lemma Z_ltb_strict_weak : strict_weak Z.ltb.
Proof.
  split; [| split].
  - intros a. apply Z.ltb_irrefl.
  - intros a b c H1 H2. apply Z.ltb_lt in H1, H2. apply Z.ltb_lt. lia.
  - intros a b c H1 H2. apply Z.ltb_ge in H1, H2. apply Z.ltb_ge. lia.
Qed.

Lemma sorts_merge_sorter : sorts merge_sorter.
Proof.
  intros A less l. unfold merge_sorter. split; [apply merge_sort_Permutation |].
  intros (Hirr & Htrans & _). apply Sorted_merge_sort.
  intros a b. destruct (less b a) eqn:Hba; [right | left; reflexivity].
  destruct (less a b) eqn:Hab; [| reflexivity].
  rewrite <- (Hirr a). symmetry. eapply Htrans; eassumption.
Qed.

Lemma sorts_admin_env (backwards compact : bool) :
  sorts (sort_Slice (admin_env backwards compact)).
Proof.
  intros A less l. cbn [admin_env sort_Slice].
  destruct (sorts_merge_sorter A less (if backwards then reverse l else l)) as [Hp Hs].
  split; [| exact Hs]. rewrite Hp. destruct backwards; [apply reverse_Permutation | reflexivity].
Qed.

Lemma ranges_map_to_list (backwards : bool) :
  ranges (fun m => if backwards then reverse (map_to_list m) else map_to_list m).
Proof.
  intros m. destruct backwards; [apply reverse_Permutation | reflexivity].
Qed.

(** A list sorted by keys that are all different ascends strictly. *)
Lemma Sorted_strict {A B : Type} (key : A -> B) (less : B -> B -> bool) (l : list A) :
  (forall x y, less x y = false -> less y x = false -> x = y) ->
  NoDup (key <$> l) ->
  Sorted (fun a b => less (key b) (key a) = false) l ->
  Sorted (fun a b => less (key a) (key b) = true) l.
Proof.
  intros Htotal Hnd Hs. induction Hs as [| a l Hs IH Hhd]; [constructor |].
  rewrite fmap_cons in Hnd. apply NoDup_cons in Hnd as [Hnotin Hnd].
  constructor; [apply IH, Hnd |].
  destruct Hhd as [| b l Hba]; constructor.
  destruct (less (key a) (key b)) eqn:Hab; [reflexivity |]. exfalso.
  apply Hnotin. rewrite (Htotal _ _ Hab Hba). rewrite fmap_cons. left.
Qed.

(** Two strictly ascending arrangements of the same elements are the
    same list. *)
Lemma strict_sorted_unique {A B : Type} (key : A -> B) (less : B -> B -> bool)
  (l1 l2 : list A) :
  strict_weak less ->
  Sorted (fun a b => less (key a) (key b) = true) l1 ->
  Sorted (fun a b => less (key a) (key b) = true) l2 ->
  l1 ≡ₚ l2 -> l1 = l2.
Proof.
  intros (Hirr & Htrans & _) H1 H2 Hp.
  assert (Htr : Transitive (fun a b => less (key a) (key b) = true)).
  { intros a b c. apply Htrans. }
  apply (@Sorted_unique_strong A (fun a b => less (key a) (key b) = true) Htr l1 l2);
    [| assumption | assumption | assumption].
  intros a b _ _ Hab Hba. exfalso.
  pose proof (Htrans _ _ _ Hab Hba) as Haa. rewrite Hirr in Haa. discriminate.
Qed.

Section TopicFacts.
Context (env : AdminEnv).
Hypothesis Hranges : ranges (mapRange env).
Hypothesis Hsorts : sorts (sort_Slice env).

Lemma sortedTopics_Permutation (topics : gmap string TopicDetail.t) :
  sortedTopics env topics ≡ₚ map_to_list topics.
Proof.
  unfold sortedTopics. etransitivity; [apply Hsorts | apply Hranges].
Qed.

Lemma sortedTopics_ascending (topics : gmap string TopicDetail.t) :
  Sorted (fun a b => String.ltb a.1 b.1 = true) (sortedTopics env topics).
Proof.
  apply (Sorted_strict fst String.ltb).
  - apply string_ltb_total.
  - rewrite sortedTopics_Permutation. apply NoDup_fst_map_to_list.
  - unfold sortedTopics. apply Hsorts. apply (strict_weak_on fst), string_ltb_strict_weak.
Qed.

End TopicFacts.

(** X12. topic ls shows the topics in strictly ascending order of their
    names, each topic of the map once and nothing else, whatever the
    order in which the map is ranged over. *)
Theorem lsTopics_ascending (env : AdminEnv) (topics : gmap string TopicDetail.t) :
  ranges (mapRange env) -> sorts (sort_Slice env) ->
  Sorted (fun a b => String.ltb a.1 b.1 = true) (sortedTopics env topics)
  /\ NoDup (sortedTopics env topics)
  /\ forall name detail,
       (name, detail) ∈ sortedTopics env topics <-> topics !! name = Some detail.
Proof.
  intros Hr Hs. split; [apply sortedTopics_ascending; assumption |]. split.
  - rewrite sortedTopics_Permutation by assumption. apply NoDup_map_to_list.
  - intros name detail. rewrite sortedTopics_Permutation by assumption.
    apply elem_of_map_to_list.
Qed.

(** X13. The output of topic ls is the same for every order in which the
    map is ranged over and every sort that meets the contract of
    [sort.Slice]. *)
Theorem lsTopicsCmd_any_order (env1 env2 : AdminEnv) :
  admin env1 = admin env2 -> noHeaderFlag env1 = noHeaderFlag env2 ->
  tabwriter_flat env1 = tabwriter_flat env2 ->
  ranges (mapRange env1) -> sorts (sort_Slice env1) ->
  ranges (mapRange env2) -> sorts (sort_Slice env2) ->
  lsTopicsCmd env1 = lsTopicsCmd env2.
Proof.
  intros Ha Hh Ht Hr1 Hs1 Hr2 Hs2. unfold lsTopicsCmd. rewrite Ha, Ht.
  destruct (ListTopics (admin env2)) as [topics | e]; [| reflexivity].
  unfold lsTopics_prints. rewrite Hh.
  rewrite (strict_sorted_unique fst String.ltb
             (sortedTopics env1 topics) (sortedTopics env2 topics)).
  - reflexivity.
  - apply string_ltb_strict_weak.
  - apply sortedTopics_ascending; assumption.
  - apply sortedTopics_ascending; assumption.
  - rewrite !sortedTopics_Permutation by assumption. reflexivity.
Qed.

Lemma lsTopics_ascending_witness :
  Sorted (fun a b => String.ltb a.1 b.1 = true)
    (sortedTopics (admin_env true false) two_topics)
  /\ NoDup (sortedTopics (admin_env true false) two_topics)
  /\ forall name detail,
       (name, detail) ∈ sortedTopics (admin_env true false) two_topics
       <-> two_topics !! name = Some detail.
Proof.
  apply (lsTopics_ascending (admin_env true false) two_topics).
  - apply (ranges_map_to_list true).
  - apply sorts_admin_env.
Defined.

Lemma lsTopicsCmd_any_order_witness :
  lsTopicsCmd (admin_env false false) = lsTopicsCmd (admin_env true false).
Proof.
  apply (lsTopicsCmd_any_order (admin_env false false) (admin_env true false));
    try reflexivity.
  - apply (ranges_map_to_list false).
  - apply sorts_admin_env.
  - apply (ranges_map_to_list true).
  - apply sorts_admin_env.
Defined.

Example lsTopicsCmd_sample :
  lsTopicsCmd (admin_env true false)
  = Returns ("NAME" +:+ TAB +:+ "PARTITIONS" +:+ TAB +:+ "REPLICAS" +:+ TAB +:+ LF
             +:+ "events" +:+ TAB +:+ "1" +:+ TAB +:+ "1" +:+ TAB +:+ LF
             +:+ "orders" +:+ TAB +:+ "3" +:+ TAB +:+ "2" +:+ TAB +:+ LF).
Proof. vm_compute. reflexivity. Qed.

(** X14. Asked about a topic the cluster does not know, topic describe
    says so and returns: the configuration is not asked for. *)
Theorem describe_unknown_topic (env : AdminEnv) (arg : string)
  (detail : TopicMetadata.t) (others : list TopicMetadata.t) :
  DescribeTopics (admin env) [arg] = Ok (detail :: others) ->
  TopicMetadata.Err detail = ErrUnknownTopicOrPartition ->
  describeTopicCmd env arg = Returns ("Topic " +:+ arg +:+ " not found." +:+ LF).
Proof.
  intros Hd Herr. unfold describeTopicCmd. rewrite Hd, Herr. reflexivity.
Qed.

Lemma describe_unknown_topic_witness :
  describeTopicCmd (admin_env false false) "clicks"
  = Returns ("Topic " +:+ "clicks" +:+ " not found." +:+ LF).
Proof.
  eapply (describe_unknown_topic (admin_env false false) "clicks"); reflexivity.
Defined.

(** X15. When the cluster answers the description request with no topic
    and no error, topic describe panics on [topicDetails[0]], having
    printed nothing. *)
Theorem describe_empty_answer_panics (env : AdminEnv) (arg : string) :
  DescribeTopics (admin env) [arg] = Ok [] ->
  describeTopicCmd env arg = Panics "" "index out of range".
Proof. intros Hd. unfold describeTopicCmd. rewrite Hd. reflexivity. Qed.

Lemma describe_empty_answer_panics_witness :
  describeTopicCmd
    {| admin := {| ListTopics := Ok ∅; DescribeTopics := fun _ => Ok [];
                   DescribeConfig := fun _ => Ok []; CreateTopic := fun _ _ _ => None;
                   DeleteTopic := fun _ => None |};
       noHeaderFlag := false; partitionsFlag := 1; replicasFlag := 1;
       compactFlag := false; mapRange := map_to_list; sort_Slice := merge_sorter;
       getHighWatermarks := fun _ _ => Ok ∅;
       tabwriter_flat := plain_writer; tabwriter_nested := plain_writer |}
    "orders"
  = Panics "" "index out of range".
Proof. apply describe_empty_answer_panics. reflexivity. Defined.

(** X16. The configuration table of topic describe has one row for each
    entry that is not a default, in the order of the answer, and none
    for a default. *)
Theorem config_rows_omit_defaults (cfg : list ConfigEntry.t) :
  config_rows cfg
  = map config_row (filter (fun e => ConfigEntry.Default e = false) cfg).
Proof.
  induction cfg as [| e cfg IH]; [reflexivity |]. cbn [config_rows].
  rewrite filter_cons. destruct (ConfigEntry.Default e) eqn:Hd.
  - rewrite decide_False by discriminate. exact IH.
  - rewrite decide_True by reflexivity. cbn [map]. rewrite IH. reflexivity.
Qed.

(** The loop of lines 115-120 finds the entry that makes a topic
    compacted. *)
Lemma compacted_iff (cfg : list ConfigEntry.t) :
  compacted cfg = true
  <-> exists e, e ∈ cfg /\ ConfigEntry.Name e = "cleanup.policy"
                /\ ConfigEntry.Value e = "compact".
Proof.
  unfold compacted.
  assert (G : forall c,
             foldl (fun c e =>
                      if String.eqb (ConfigEntry.Name e) "cleanup.policy"
                         && String.eqb (ConfigEntry.Value e) "compact"
                      then true else c) c cfg = true
             <-> c = true
                 \/ exists e, e ∈ cfg /\ ConfigEntry.Name e = "cleanup.policy"
                              /\ ConfigEntry.Value e = "compact").
  { induction cfg as [| e cfg IH]; intros c; cbn [foldl].
    - split; [auto |]. intros [H | (e & H & _)]; [exact H | inversion H].
    - rewrite IH. split.
      + intros [H | (x & Hx & Hn & Hv)].
        * destruct (_ && _) eqn:Hc; [| auto]. right. exists e.
          apply andb_true_iff in Hc as [Hn Hv].
          apply String.eqb_eq in Hn, Hv. split; [left | auto].
        * right. exists x. split; [right; exact Hx | auto].
      + intros [-> | (x & Hx & Hn & Hv)].
        * left. destruct (_ && _); reflexivity.
        * apply elem_of_cons in Hx as [-> | Hx].
          -- left. rewrite Hn, Hv. reflexivity.
          -- right. exists x. auto. }
  rewrite G. split; [intros [H | H]; [discriminate | exact H] | auto].
Qed.

(** X17. A topic made by topic create is shown by topic describe as
    compacted exactly when the compact flag was given, provided the
    cluster reports for cleanup.policy the value it was sent. *)
Theorem create_then_describe_compacted (env : AdminEnv) (cfg : list ConfigEntry.t) :
  (exists e, e ∈ cfg /\ ConfigEntry.Name e = "cleanup.policy") ->
  (forall e, e ∈ cfg -> ConfigEntry.Name e = "cleanup.policy" ->
     TopicDetail.ConfigEntries (createRequest env) !! ConfigEntry.Name e
     = Some (Some (ConfigEntry.Value e))) ->
  compacted cfg = compactFlag env.
Proof.
  intros (e & He & Hn) Hsame.
  assert (Hvalue : forall x, x ∈ cfg -> ConfigEntry.Name x = "cleanup.policy" ->
            ConfigEntry.Value x = if compactFlag env then "compact" else "delete").
  { intros x Hx Hxn. specialize (Hsame x Hx Hxn). rewrite Hxn in Hsame.
    unfold createRequest in Hsame. cbn [TopicDetail.ConfigEntries] in Hsame.
    rewrite lookup_singleton_eq in Hsame. congruence. }
  destruct (compactFlag env).
  - apply compacted_iff. exists e. auto.
  - destruct (compacted cfg) eqn:Hc; [| reflexivity].
    apply compacted_iff in Hc as (x & Hx & Hxn & Hxv).
    rewrite (Hvalue x Hx Hxn) in Hxv. discriminate.
Qed.

Lemma create_then_describe_compacted_witness :
  compacted orders_config = compactFlag (admin_env false true).
Proof.
  apply (create_then_describe_compacted (admin_env false true) orders_config).
  - exists (entry_of "cleanup.policy" "compact" false). split; [| reflexivity].
    right. left.
  - intros e He Hn. apply elem_of_cons in He as [-> | He]; [discriminate |].
    apply list_elem_of_singleton in He as ->. reflexivity.
Defined.

Lemma Sorted_weaken {A : Type} (R R' : A -> A -> Prop) (l : list A) :
  (forall a b, R a b -> R' a b) -> Sorted R l -> Sorted R' l.
Proof.
  intros HR Hs. induction Hs as [| a l _ IH Hhd]; constructor; [exact IH |].
  destruct Hhd; constructor. auto.
Qed.

Section DescribeFacts.
Context (env : AdminEnv).
Hypothesis Hsorts : sorts (sort_Slice env).

Lemma sortedInts_ascending (l : list Z) :
  Sorted Z.le (sortedInts env l) /\ sortedInts env l ≡ₚ l.
Proof.
  unfold sortedInts. destruct (Hsorts Z Z.ltb l) as [Hp Hs]. split; [| exact Hp].
  specialize (Hs Z_ltb_strict_weak).
  eapply Sorted_weaken; [| exact Hs]. intros a b H. apply Z.ltb_ge in H. exact H.
Qed.

Lemma sortedPartitions_ascending (detail : TopicMetadata.t) :
  NoDup (PartitionMetadata.ID <$> TopicMetadata.Partitions detail) ->
  Sorted (fun a b => (PartitionMetadata.ID a <? PartitionMetadata.ID b) = true)
    (sortedPartitions env detail)
  /\ sortedPartitions env detail ≡ₚ TopicMetadata.Partitions detail.
Proof.
  intros Hnd. unfold sortedPartitions.
  destruct (Hsorts _ (fun a b => PartitionMetadata.ID a <? PartitionMetadata.ID b)
              (TopicMetadata.Partitions detail)) as [Hp Hs].
  split; [| exact Hp].
  apply (Sorted_strict PartitionMetadata.ID Z.ltb).
  - intros x y H1 H2. apply Z.ltb_ge in H1, H2. lia.
  - rewrite Hp. exact Hnd.
  - apply Hs. apply (strict_weak_on PartitionMetadata.ID), Z_ltb_strict_weak.
Qed.

End DescribeFacts.

(** X18. When the partitions of the topic have different identifiers, the
    output of topic describe is the same for every sort that meets the
    contract of [sort.Slice]: that the sort is not stable does not
    show. *)
Theorem describe_any_sort (env1 env2 : AdminEnv) (arg : string) :
  admin env1 = admin env2 ->
  getHighWatermarks env1 = getHighWatermarks env2 ->
  tabwriter_flat env1 = tabwriter_flat env2 ->
  tabwriter_nested env1 = tabwriter_nested env2 ->
  sorts (sort_Slice env1) -> sorts (sort_Slice env2) ->
  (forall detail others,
     DescribeTopics (admin env2) [arg] = Ok (detail :: others) ->
     NoDup (PartitionMetadata.ID <$> TopicMetadata.Partitions detail)) ->
  describeTopicCmd env1 arg = describeTopicCmd env2 arg.
Proof.
  intros Ha Hh Hf Hn Hs1 Hs2 Hnd. unfold describeTopicCmd.
  rewrite Ha, Hh, Hf, Hn.
  destruct (DescribeTopics (admin env2) [arg]) as [[| detail others] | e] eqn:Hd;
    try reflexivity.
  destruct (_ =? _); [reflexivity |].
  destruct (DescribeConfig _ _) as [cfg | e]; [| reflexivity].
  assert (Hparts : sortedPartitions env1 detail = sortedPartitions env2 detail).
  { destruct (sortedPartitions_ascending env1 Hs1 detail (Hnd _ _ eq_refl)) as [S1 P1].
    destruct (sortedPartitions_ascending env2 Hs2 detail (Hnd _ _ eq_refl)) as [S2 P2].
    apply (strict_sorted_unique PartitionMetadata.ID Z.ltb);
      [apply Z_ltb_strict_weak | exact S1 | exact S2 | rewrite P1, P2; reflexivity]. }
  assert (Hints : forall l, sortedInts env1 l = sortedInts env2 l).
  { intros l. destruct (sortedInts_ascending env1 Hs1 l) as [S1 P1].
    destruct (sortedInts_ascending env2 Hs2 l) as [S2 P2].
    apply (Sorted_unique Z.le); [exact S1 | exact S2 | rewrite P1, P2; reflexivity]. }
  rewrite Hparts. cbv zeta.
  destruct (getHighWatermarks env2 arg _) as [hw | text]; [| reflexivity].
  assert (Hrows : map (partition_row env1 hw) (sortedPartitions env2 detail)
                  = map (partition_row env2 hw) (sortedPartitions env2 detail)).
  { apply map_ext. intros p. unfold partition_row. rewrite !Hints. reflexivity. }
  rewrite Hrows. reflexivity.
Qed.

Lemma describe_any_sort_witness :
  describeTopicCmd (admin_env false false) "orders"
  = describeTopicCmd (admin_env true false) "orders".
Proof.
  apply (describe_any_sort (admin_env false false) (admin_env true false) "orders");
    try reflexivity.
  - apply sorts_admin_env.
  - apply sorts_admin_env.
  - intros detail others Hd. injection Hd as <- _.
    refine (bool_decide_unpack _ _). vm_compute. exact I.
Defined.

(** The partitions of the sample topic come out in the order of their
    identifiers, the replicas of each in ascending order, the default
    entry of the configuration left out, and a partition the map of
    high water marks does not hold is shown with 0. *)
Example describeTopicCmd_sample :
  describeTopicCmd (admin_env true false) "orders"
  = Returns
      ("Name:" +:+ TAB +:+ "orders" +:+ TAB +:+ LF
       +:+ "Internal:" +:+ TAB +:+ "false" +:+ TAB +:+ LF
       +:+ "Compacted:" +:+ TAB +:+ "true" +:+ TAB +:+ LF
       +:+ "Partitions:" +:+ LF
       +:+ String.concat "" (partitions_heading)
       +:+ TAB +:+ "0" +:+ TAB +:+ "42" +:+ TAB +:+ "1" +:+ TAB +:+ "[1 2]"
       +:+ TAB +:+ "[1 2]" +:+ TAB +:+ LF
       +:+ TAB +:+ "1" +:+ TAB +:+ "7" +:+ TAB +:+ "2" +:+ TAB +:+ "[2 3]"
       +:+ TAB +:+ "[2 3]" +:+ TAB +:+ LF
       +:+ TAB +:+ "2" +:+ TAB +:+ "0" +:+ TAB +:+ "1" +:+ TAB +:+ "[1 3]"
       +:+ TAB +:+ "[1 3]" +:+ TAB +:+ LF
       +:+ String.concat "" (config_heading)
       +:+ TAB +:+ "cleanup.policy" +:+ TAB +:+ "compact" +:+ TAB +:+ "false"
       +:+ TAB +:+ "false" +:+ TAB +:+ LF).
Proof. vm_compute. reflexivity. Qed.
